(** * Full graphs and full citation graphs: [src/constructors/full.c]

    A shallow embedding of [igraph_full] and [igraph_full_citation] and the
    properties of the edge lists they hand to [igraph_create].

    Conventions of the embedding.
    - [igraph_integer_t] is a signed machine integer whose declaration is not
      part of [full.c]; its width in bits is the section variable
      [IGRAPH_INTEGER_SIZE], and the size computations [n * n], [n * (n - 1)],
      ... are carried out in that type, with two's complement wrap-around.
    - The loop counters [i], [j] and [ptr] are [long int]s that stay between
      [0] and the bound they are compared with; they are plain [Z] values,
      and so are the vertex indices held in the slots of the edge vector.
    - [igraph_vector_t] and its operations live in another file of the
      library; they are modelled below from the specification of the edge
      list builder. Memory is unbounded: an allocation always succeeds.
    - [igraph_create] is the external graph constructor; it is a section
      variable, and the generators pass its result on unchanged. *)

From stdpp Require Import base list list_numbers sorting gmap.

Local Open Scope Z_scope.
Set Default Proof Using "Type".

(** ** Error codes and outcomes *)

(** Modelled from the spec: the declaration of [igraph_error_t] is not in
    [full.c]. The error kinds are those of the specification's error design:
    an invalid argument ([IGRAPH_EINVAL] in the source), an allocation
    failure and a failure of the graph constructor. *)
Inductive igraph_error_t : Set :=
  | IGRAPH_EINVAL
  | IGRAPH_ENOMEM
  | IGRAPH_ECONSTRUCT.

(** What a call does: it returns normally with a value, it returns an error
    code, or it leaves the behaviour defined by C (a store outside the
    bounds of a vector). *)
Inductive outcome (A : Type) : Type :=
  | Done (a : A)
  | Raise (e : igraph_error_t)
  | Undefined.
Arguments Done {A} a.
Arguments Raise {A} e.
Arguments Undefined {A}.

(** [IGRAPH_ERROR(msg, code)]: return the error code to the caller. *)
Definition IGRAPH_ERROR {A} (e : igraph_error_t) : outcome A := Raise e.

(** [IGRAPH_CHECK(call)]: continue when the call succeeded, return its error
    code otherwise. Below, [x ← call; rest] is [IGRAPH_CHECK(call)] followed
    by [rest], with [x] the object the call has set up. *)
Definition IGRAPH_CHECK {A B} (k : A → outcome B) (call : outcome A) : outcome B :=
  match call with
  | Done a => k a
  | Raise e => Raise e
  | Undefined => Undefined
  end.

#[export] Instance outcome_ret : MRet outcome := λ A a, Done a.
#[export] Instance outcome_bind : MBind outcome := λ A B k call, IGRAPH_CHECK k call.

(** ** Counted loops *)

(** [for (i = lo; i < hi; i++) body]: the body neither changes [i] nor the
    bound, so the loop runs [hi - lo] times when [lo < hi] and not at all
    otherwise. *)
Fixpoint for_iter {S : Type} (k : nat) (i : Z) (body : Z → S → S) (s : S) : S :=
  match k with
  | O => s
  | S k' => for_iter k' (i + 1) body (body i s)
  end.

Definition for_loop {S : Type} (lo hi : Z) (body : Z → S → S) (s : S) : S :=
  for_iter (Z.to_nat (hi - lo)) lo body s.

(** ** The edge vector *)

(** Modelled from the spec: [igraph_vector_t], [igraph_vector_init],
    [igraph_vector_reserve] and [igraph_vector_push_back] are not in
    [full.c]. The vector is the edge list builder of the specification: a
    flat sequence of vertex-index slots ([stor]) inside a storage of
    [capacity] slots. [push_reallocs] counts the appends that had to enlarge
    the storage; it is bookkeeping of the model, not a field of the C
    struct. *)
Record igraph_vector_t : Type := mk_vector {
  stor : list Z;
  capacity : Z;
  push_reallocs : nat
}.

(** Modelled from the spec: [igraph_vector_init(v, size)] creates a vector of
    [size] slots, pre-sized to exactly that length; the slots hold zero and a
    negative size gives the empty vector. *)
Definition igraph_vector_init (size : Z) : outcome igraph_vector_t :=
  Done {| stor := replicate (Z.to_nat size) 0;
          capacity := Z.max size 0;
          push_reallocs := 0 |}.

(** Modelled from the spec: [reserve(capacity)] pre-allocates storage for
    [capacity] vertex-index slots; a storage that is already large enough
    is left alone. *)
Definition igraph_vector_reserve (v : igraph_vector_t) (cap : Z) : outcome igraph_vector_t :=
  Done {| stor := stor v;
          capacity := Z.max (capacity v) cap;
          push_reallocs := push_reallocs v |}.

(** Modelled from the spec: [append] pushes one slot at the end; when the
    storage is full it is enlarged first (to twice its size, or to one slot),
    which is a reallocation. [igraph_full] ignores the value returned by
    [igraph_vector_push_back]. *)
Definition igraph_vector_push_back (v : igraph_vector_t) (e : Z) : igraph_vector_t :=
  if decide (Z.of_nat (length (stor v)) < capacity v)
  then {| stor := stor v ++ [e];
          capacity := capacity v;
          push_reallocs := push_reallocs v |}
  else {| stor := stor v ++ [e];
          capacity := Z.max 1 (2 * Z.of_nat (length (stor v)));
          push_reallocs := S (push_reallocs v) |}.

(** The edges of a flat vector, as [igraph_create] reads it: slots [2k] and
    [2k+1] are the two ends of edge [k]. *)
Fixpoint edge_list (slots : list Z) : list (Z * Z) :=
  match slots with
  | u :: v :: rest => (u, v) :: edge_list rest
  | _ => []
  end.

(** The flat vector of a list of edges. *)
Definition flatten (es : list (Z * Z)) : list Z :=
  e ← es; [e.1; e.2].

(** ** The enumerations of the specification *)

(** The edges [(i, lo)], ..., [(i, hi - 1)]. *)
Definition row (i lo hi : Z) : list (Z * Z) :=
  (λ j, (i, j)) <$> seqZ lo (hi - lo).

(** The enumeration rule of each of the four variants for one outer index
    [i], as the specification tabulates them. *)
Definition full_rule (n : Z) (directed loops : bool) (i : Z) : list (Z * Z) :=
  match directed, loops with
  | true, true => row i 0 n
  | true, false => row i 0 i ++ row i (i + 1) n
  | false, true => row i i n
  | false, false => row i (i + 1) n
  end.

Definition full_enumeration (n : Z) (directed loops : bool) : list (Z * Z) :=
  i ← seqZ 0 n; full_rule n directed loops i.

(** The closed-form edge counts of the four variants. *)
Definition full_count (n : Z) (directed loops : bool) : Z :=
  match directed, loops with
  | true, true => n * n
  | true, false => n * (n - 1)
  | false, true => n * (n + 1) / 2
  | false, false => n * (n - 1) / 2
  end.

(** Which pairs a variant owns. *)
Definition full_member (n : Z) (directed loops : bool) (e : Z * Z) : Prop :=
  0 ≤ e.1 < n ∧ 0 ≤ e.2 < n ∧
  match directed, loops with
  | true, true => True
  | true, false => e.1 ≠ e.2
  | false, true => e.1 ≤ e.2
  | false, false => e.1 < e.2
  end.

(** The citation rule: for [i] from [1] to [n - 1], for [j] from [0] to
    [i - 1], the edge [(i, j)]. *)
Definition citation_enumeration (n : Z) : list (Z * Z) :=
  i ← seqZ 1 (n - 1); row i 0 i.

(** Edges ordered by first index, then by second index. *)
Definition lex_lt (e1 e2 : Z * Z) : Prop :=
  e1.1 < e2.1 ∨ (e1.1 = e2.1 ∧ e1.2 < e2.2).

(** An edge read as an unordered pair: smaller end first. *)
Definition unordered (e : Z * Z) : Z * Z :=
  (Z.min e.1 e.2, Z.max e.1 e.2).

(** ** Positions and degrees in an edge list *)

(** Where the row of the outer index [i] starts in the edge list of a
    variant of [igraph_full]: the number of edges the rounds [0 .. i - 1] of
    the outer loop have appended. *)
Definition full_row_start (n : Z) (directed loops : bool) (i : Z) : Z :=
  match directed, loops with
  | true, true => i * n
  | true, false => i * (n - 1)
  | false, true => i * (2 * n - i + 1) / 2
  | false, false => i * (2 * n - i - 1) / 2
  end.

(** The number of rounds of the inner loop(s) that precede the one for [j]
    in the round [i] of the outer loop. *)
Definition full_row_offset (directed loops : bool) (i j : Z) : Z :=
  match directed, loops with
  | true, true => j
  | true, false => if decide (j < i) then j else j - 1
  | false, true => j - i
  | false, false => j - i - 1
  end.

(** The position (edge id) of the edge [(i, j)] in the edge list. *)
Definition full_position (n : Z) (directed loops : bool) (i j : Z) : Z :=
  full_row_start n directed loops i + full_row_offset directed loops i j.

Definition citation_position (i j : Z) : Z := i * (i - 1) / 2 + j.

(** How many edges of a list leave [u], and how many enter it. *)
Definition out_degree (es : list (Z * Z)) (u : Z) : nat :=
  length (filter (λ e : Z * Z, e.1 = u) es).

Definition in_degree (es : list (Z * Z)) (u : Z) : nat :=
  length (filter (λ e : Z * Z, e.2 = u) es).

(** The self-loops on the vertices [0 .. n - 1]. *)
Definition self_loops (n : Z) : list (Z * Z) :=
  (λ i, (i, i)) <$> seqZ 0 n.

Section Full.

(** The width of [igraph_integer_t], in bits. *)
Variable IGRAPH_INTEGER_SIZE : positive.

(** The graph type and the graph constructor [igraph_create(graph, edges, n,
    directed)], given the slots of the edge vector. *)
Variable igraph_t : Type.
Variable igraph_create : list Z → Z → bool → outcome igraph_t.

(** The largest [igraph_integer_t]; the smallest is [- IGRAPH_INTEGER_MAX - 1]. *)
Definition IGRAPH_INTEGER_MAX : Z := 2 ^ (Z.pos IGRAPH_INTEGER_SIZE - 1) - 1.

(** Arithmetic of [igraph_integer_t], with wrap-around. *)
Definition wrap (z : Z) : Z :=
  (z + (IGRAPH_INTEGER_MAX + 1)) `mod` (2 * (IGRAPH_INTEGER_MAX + 1))
  - (IGRAPH_INTEGER_MAX + 1).

Definition int_add (a b : Z) : Z := wrap (a + b).
Definition int_sub (a b : Z) : Z := wrap (a - b).
Definition int_mul (a b : Z) : Z := wrap (a * b).
Definition int_div (a b : Z) : Z := wrap (a `quot` b).

(** ** [igraph_full] *)

(** [igraph_full] up to the call of [igraph_create]: the edge vector. *)
Definition igraph_full_edges (n : Z) (directed loops : bool) : outcome igraph_vector_t :=
  if decide (n < 0) then IGRAPH_ERROR IGRAPH_EINVAL else
  edges ← igraph_vector_init 0;
  if directed && loops then
    edges ← igraph_vector_reserve edges (int_mul n n);
    Done (for_loop 0 n (λ i edges,
            for_loop 0 n (λ j edges,
              igraph_vector_push_back (igraph_vector_push_back edges i) j) edges) edges)
  else if directed && negb loops then
    edges ← igraph_vector_reserve edges (int_mul n (int_sub n 1));
    Done (for_loop 0 n (λ i edges,
            let edges :=
              for_loop 0 i (λ j edges,
                igraph_vector_push_back (igraph_vector_push_back edges i) j) edges in
            for_loop (i + 1) n (λ j edges,
              igraph_vector_push_back (igraph_vector_push_back edges i) j) edges) edges)
  else if negb directed && loops then
    edges ← igraph_vector_reserve edges (int_div (int_mul n (int_add n 1)) 2);
    Done (for_loop 0 n (λ i edges,
            for_loop i n (λ j edges,
              igraph_vector_push_back (igraph_vector_push_back edges i) j) edges) edges)
  else
    edges ← igraph_vector_reserve edges (int_div (int_mul n (int_sub n 1)) 2);
    Done (for_loop 0 n (λ i edges,
            for_loop (i + 1) n (λ j edges,
              igraph_vector_push_back (igraph_vector_push_back edges i) j) edges) edges).

Definition igraph_full (n : Z) (directed loops : bool) : outcome igraph_t :=
  edges ← igraph_full_edges n directed loops;
  igraph_create (stor edges) n directed.

(** ** [igraph_full_citation] *)

(** [VECTOR(v)[k] = x]: a store into slot [k] of the vector, outside the
    behaviour C defines when the vector has no slot [k]. *)
Definition VECTOR_set (v : igraph_vector_t) (k x : Z) : outcome igraph_vector_t :=
  if decide (0 ≤ k < Z.of_nat (length (stor v)))
  then Done {| stor := <[Z.to_nat k := x]> (stor v);
               capacity := capacity v;
               push_reallocs := push_reallocs v |}
  else Undefined.

(** The variables the loops of [igraph_full_citation] update: the vector and
    the write cursor [ptr]. [written] lists the slots stored into so far, in
    the order of the stores; it is bookkeeping of the model. *)
Record fill_state : Type := mk_fill {
  edges_of : igraph_vector_t;
  ptr : Z;
  written : list Z
}.

(** [VECTOR(edges)[ptr++] = x]. *)
Definition store (x : Z) (st : fill_state) : outcome fill_state :=
  edges ← VECTOR_set (edges_of st) (ptr st) x;
  Done {| edges_of := edges;
          ptr := ptr st + 1;
          written := written st ++ [ptr st] |}.

(** [igraph_full_citation] up to the call of [igraph_create]. The state of
    the loops is an [outcome]: once a store has left the vector it stays
    [Undefined]. *)
Definition igraph_full_citation_fill (n : Z) : outcome fill_state :=
  edges ← igraph_vector_init (int_mul n (int_sub n 1));
  for_loop 1 n (λ i (st : outcome fill_state),
    for_loop 0 i (λ j (st : outcome fill_state),
      st ← st; st ← store i st; store j st) st)
    (Done {| edges_of := edges; ptr := 0; written := [] |}).

Definition igraph_full_citation (n : Z) (directed : bool) : outcome igraph_t :=
  st ← igraph_full_citation_fill n;
  igraph_create (stor (edges_of st)) n directed.

(** The assertion the loops of [igraph_full_citation] maintain, for a vector
    of [N] slots when the slots [ws] have been stored so far: no store left
    the vector, the cursor is just past [ws], the vector starts with [ws],
    and the slots stored into are [0], [1], ..., one after the other. *)
Definition fill_inv (N : Z) (ws : list Z) (o : outcome fill_state) : Prop :=
  ∃ st, o = Done st
    ∧ Z.of_nat (length (stor (edges_of st))) = N
    ∧ ptr st = Z.of_nat (length ws)
    ∧ take (length ws) (stor (edges_of st)) = ws
    ∧ written st = seqZ 0 (Z.of_nat (length ws)).

(** What is known of the cursor whenever the stores so far stayed inside a
    vector of [L] slots: it counts the stores, [k], and has not passed the
    end of the vector. *)
Definition cursor_inv (L k : Z) (o : outcome fill_state) : Prop :=
  ∀ st, o = Done st →
    Z.of_nat (length (stor (edges_of st))) = L ∧ ptr st = k ∧ k ≤ L.

(** The assertion on the vector of [igraph_full] between appends, for a
    storage reserved for [cap0] slots: the slots fit in the storage, and as
    long as no append has enlarged the storage it is the reserved one. *)
Definition reserved_inv (cap0 : Z) (v : igraph_vector_t) : Prop :=
  Z.of_nat (length (stor v)) ≤ capacity v
  ∧ (push_reallocs v = 0%nat → capacity v = cap0).

(** ** Loops, vectors and flat edge lists *)

Lemma for_loop_nil {S : Type} lo hi (body : Z → S → S) s :
  hi ≤ lo → for_loop lo hi body s = s.
Proof.
  intros Hle. unfold for_loop.
  replace (Z.to_nat (hi - lo)) with O by lia. reflexivity.
Qed.

(** The loop rule: an assertion that holds on entry and that each round
    carries from [i] to [i + 1] holds on exit, at [i = hi]. *)
Lemma for_loop_invariant {S : Type} (P : Z → S → Prop) lo hi (body : Z → S → S) s :
  lo ≤ hi →
  P lo s →
  (∀ i s', lo ≤ i < hi → P i s' → P (i + 1) (body i s')) →
  P hi (for_loop lo hi body s).
Proof.
  intros Hle Hentry Hstep. unfold for_loop.
  remember (Z.to_nat (hi - lo)) as k eqn:Hk.
  revert lo s Hle Hentry Hstep Hk.
  induction k as [|k IH]; intros lo s Hle Hentry Hstep Hk; simpl.
  - replace hi with lo by lia. exact Hentry.
  - apply IH; [lia | apply Hstep; [lia | exact Hentry] | | lia].
    intros i s' Hi. apply Hstep. lia.
Qed.

(** A loop whose rounds append [g i] to some list kept in the state appends
    the concatenation of the [g i]. *)
Lemma for_loop_appends {S T : Type} (f : S → list T) (g : Z → list T)
    lo hi (body : Z → S → S) s :
  (∀ i s', lo ≤ i < hi → f (body i s') = f s' ++ g i) →
  f (for_loop lo hi body s) = f s ++ (seqZ lo (hi - lo) ≫= g).
Proof.
  intros Hbody. destruct (decide (lo ≤ hi)) as [Hle|Hgt].
  - apply for_loop_invariant with
      (P := λ i s', f s' = f s ++ (seqZ lo (i - lo) ≫= g)); [done| |].
    + rewrite seqZ_nil by lia. simpl. by rewrite app_nil_r.
    + intros i s' Hi HP. rewrite Hbody, HP by done.
      replace (i + 1 - lo) with ((i - lo) + 1) by lia.
      rewrite seqZ_app, bind_app by lia.
      replace (lo + (i - lo)) with i by lia.
      rewrite (seqZ_cons i 1), (seqZ_nil (Z.succ i)) by lia. simpl.
      by rewrite !app_nil_r, <- app_assoc.
  - rewrite for_loop_nil, seqZ_nil by lia. simpl. by rewrite app_nil_r.
Qed.

Lemma stor_push_back v e : stor (igraph_vector_push_back v e) = stor v ++ [e].
Proof. unfold igraph_vector_push_back. by case_decide. Qed.

Lemma flatten_app es1 es2 : flatten (es1 ++ es2) = flatten es1 ++ flatten es2.
Proof. apply bind_app. Qed.

Lemma flatten_bind {A} (g : A → list (Z * Z)) (l : list A) :
  flatten (l ≫= g) = l ≫= (λ x, flatten (g x)).
Proof.
  induction l as [|x l IH]; [done|].
  rewrite !bind_cons, flatten_app. by f_equal.
Qed.

Lemma flatten_row i lo hi :
  flatten (row i lo hi) = seqZ lo (hi - lo) ≫= (λ j, [i; j]).
Proof. unfold flatten, row. by rewrite list_fmap_bind. Qed.

Lemma edge_list_flatten es : edge_list (flatten es) = es.
Proof.
  induction es as [|[u v] es IH]; [done|].
  unfold flatten in *. rewrite bind_cons. simpl. by rewrite IH.
Qed.

Lemma length_flatten es : length (flatten es) = (2 * length es)%nat.
Proof.
  induction es as [|e es IH]; [done|].
  unfold flatten in *. rewrite bind_cons, length_app, IH. simpl. lia.
Qed.

(** The inner loops of both generators append one row. *)
Lemma push_row i lo hi v :
  stor (for_loop lo hi (λ j edges,
          igraph_vector_push_back (igraph_vector_push_back edges i) j) v)
  = stor v ++ flatten (row i lo hi).
Proof.
  rewrite flatten_row. apply for_loop_appends.
  intros j v' _. by rewrite !stor_push_back, <- app_assoc.
Qed.

(** ** What [igraph_full] computes *)

(** From [n >= 0] on, [igraph_full] reaches [igraph_create], and the vector
    it passes holds the enumeration of the selected variant, flattened. *)
Lemma igraph_full_edges_spec n directed loops :
  0 ≤ n →
  ∃ v, igraph_full_edges n directed loops = Done v
       ∧ stor v = flatten (full_enumeration n directed loops).
Proof.
  intros Hn. unfold igraph_full_edges.
  case_decide; [lia|]. unfold full_enumeration. rewrite flatten_bind.
  destruct directed eqn:Hd, loops eqn:Hl; simpl; eexists; (split; [reflexivity|]).
  all: match goal with
       | |- _ = _ ≫= ?g => rewrite (for_loop_appends stor g)
       end; simpl; rewrite ?Z.sub_0_r; try done.
  all: intros i v' _; rewrite ?flatten_app, ?push_row; try done.
  by rewrite app_assoc.
Qed.

(** ** The enumerations: members, order, length *)

Lemma elem_of_row i lo hi e : e ∈ row i lo hi ↔ e.1 = i ∧ lo ≤ e.2 < hi.
Proof.
  unfold row. rewrite list_elem_of_fmap. setoid_rewrite elem_of_seqZ.
  destruct e as [u v]; simpl. split.
  - intros (j & [= -> ->] & Hj). lia.
  - intros [-> Hv]. exists v. split; [done | lia].
Qed.

Lemma length_row i lo hi : length (row i lo hi) = Z.to_nat (hi - lo).
Proof. unfold row. by rewrite length_fmap, length_seqZ. Qed.

Lemma elem_of_full_rule n directed loops i e :
  0 ≤ i < n →
  e ∈ full_rule n directed loops i ↔ e.1 = i ∧ full_member n directed loops e.
Proof.
  intros Hi. unfold full_rule, full_member.
  destruct directed, loops; rewrite ?elem_of_app, !elem_of_row; lia.
Qed.

Lemma elem_of_full_enumeration n directed loops e :
  e ∈ full_enumeration n directed loops ↔ full_member n directed loops e.
Proof.
  unfold full_enumeration. rewrite list_elem_of_bind. split.
  - intros (i & He & Hi). apply elem_of_seqZ in Hi.
    apply elem_of_full_rule in He; [tauto | lia].
  - intros He. exists e.1. split.
    + apply elem_of_full_rule; [|done]. unfold full_member in He. lia.
    + apply elem_of_seqZ. unfold full_member in He. lia.
Qed.

Lemma elem_of_citation_enumeration n e :
  e ∈ citation_enumeration n ↔ 0 ≤ e.2 < e.1 ∧ e.1 < n.
Proof.
  unfold citation_enumeration. rewrite list_elem_of_bind.
  setoid_rewrite elem_of_row. setoid_rewrite elem_of_seqZ. split.
  - intros (i & [-> Hj] & Hi). lia.
  - intros He. exists e.1. lia.
Qed.

(** The length of a concatenation over [lo .. lo + n - 1], by a summation
    formula [F] of the number of rows done. *)
Lemma length_bind_seqZ {T : Type} (g : Z → list T) (F : Z → Z) lo n :
  0 ≤ n →
  F 0 = 0 →
  (∀ k, 0 ≤ k < n → F (k + 1) = F k + Z.of_nat (length (g (lo + k)))) →
  Z.of_nat (length (seqZ lo n ≫= g)) = F n.
Proof.
  intros Hn HF0 HF. rewrite <- (Z2Nat.id n) in * by done.
  induction (Z.to_nat n) as [|k IH].
  - simpl. symmetry. exact HF0.
  - rewrite seqZ_S, bind_app, length_app, Nat2Z.inj_add, IH;
      [| lia | intros i Hi; apply HF; lia].
    simpl. rewrite app_nil_r, Nat2Z.inj_succ, <- Z.add_1_r, HF by lia.
    done.
Qed.

Lemma length_full_rule n directed loops i :
  0 ≤ i < n →
  Z.of_nat (length (full_rule n directed loops i)) =
    match directed, loops with
    | true, true => n
    | true, false => n - 1
    | false, true => n - i
    | false, false => n - i - 1
    end.
Proof.
  intros Hi. unfold full_rule.
  destruct directed, loops; rewrite ?length_app, !length_row; lia.
Qed.

Lemma length_full_enumeration n directed loops :
  0 ≤ n →
  Z.of_nat (length (full_enumeration n directed loops)) = full_count n directed loops.
Proof.
  intros Hn. unfold full_enumeration, full_count.
  destruct directed, loops.
  - apply (length_bind_seqZ _ (λ k, k * n)); [done | lia |].
    intros i Hi. rewrite Z.add_0_l, length_full_rule by done. lia.
  - apply (length_bind_seqZ _ (λ k, k * (n - 1))); [done | lia |].
    intros i Hi. rewrite Z.add_0_l, length_full_rule by done. lia.
  - rewrite (length_bind_seqZ _ (λ k, k * (2 * n - k + 1) / 2)); [| done | done |].
    + f_equal. lia.
    + intros i Hi. rewrite Z.add_0_l, length_full_rule by done.
      replace ((i + 1) * (2 * n - (i + 1) + 1))
        with (i * (2 * n - i + 1) + (n - i) * 2) by lia.
      by rewrite Z.div_add.
  - rewrite (length_bind_seqZ _ (λ k, k * (2 * n - k - 1) / 2)); [| done | done |].
    + f_equal. lia.
    + intros i Hi. rewrite Z.add_0_l, length_full_rule by done.
      replace ((i + 1) * (2 * n - (i + 1) - 1))
        with (i * (2 * n - i - 1) + (n - i - 1) * 2) by lia.
      by rewrite Z.div_add.
Qed.

(** Order of emission: every enumeration is strictly increasing in
    [(first index, second index)]. *)

Lemma StronglySorted_seqZ lo len : StronglySorted Z.lt (seqZ lo len).
Proof.
  remember (Z.to_nat len) as k eqn:Hk. revert lo len Hk.
  induction k as [|k IH]; intros lo len Hk.
  - rewrite seqZ_nil by lia. constructor.
  - rewrite seqZ_cons by lia. constructor; [apply IH; lia|].
    apply Forall_seqZ. lia.
Qed.

Lemma StronglySorted_row i lo hi : StronglySorted lex_lt (row i lo hi).
Proof.
  unfold row. apply StronglySorted_fmap with (R1 := Z.lt).
  - intros j j' Hlt. right. simpl. lia.
  - apply StronglySorted_seqZ.
Qed.

Lemma StronglySorted_full_rule n directed loops i :
  StronglySorted lex_lt (full_rule n directed loops i).
Proof.
  unfold full_rule. destruct directed, loops; try apply StronglySorted_row.
  apply StronglySorted_app_2; try apply StronglySorted_row.
  intros e1 e2 [H1 ?]%elem_of_row [H2 ?]%elem_of_row. right. lia.
Qed.

(** Rows emitted for increasing outer indices, each in order, are in order. *)
Lemma StronglySorted_bind_seqZ (g : Z → list (Z * Z)) lo len :
  (∀ i, lo ≤ i < lo + len → StronglySorted lex_lt (g i)) →
  (∀ i e, lo ≤ i < lo + len → e ∈ g i → e.1 = i) →
  StronglySorted lex_lt (seqZ lo len ≫= g).
Proof.
  remember (Z.to_nat len) as k eqn:Hk. revert lo len Hk.
  induction k as [|k IH]; intros lo len Hk Hrow Hfst.
  - rewrite seqZ_nil by lia. constructor.
  - rewrite seqZ_cons, bind_cons by lia. apply StronglySorted_app_2.
    + intros e1 e2 H1 (i & H2 & Hi)%list_elem_of_bind.
      apply elem_of_seqZ in Hi. left.
      rewrite (Hfst lo e1), (Hfst i e2) by (done || lia). lia.
    + apply Hrow. lia.
    + apply IH; [lia | |]; intros; [apply Hrow | apply Hfst]; (done || lia).
Qed.

Lemma StronglySorted_full_enumeration n directed loops :
  StronglySorted lex_lt (full_enumeration n directed loops).
Proof.
  apply StronglySorted_bind_seqZ.
  - intros. apply StronglySorted_full_rule.
  - intros i e Hi He. by apply elem_of_full_rule in He as [? _].
Qed.

Lemma StronglySorted_citation_enumeration n :
  StronglySorted lex_lt (citation_enumeration n).
Proof.
  apply StronglySorted_bind_seqZ.
  - intros. apply StronglySorted_row.
  - intros i e Hi He. by apply elem_of_row in He as [? _].
Qed.

Lemma StronglySorted_lookup {A} (R : relation A) l p q x y :
  StronglySorted R l → (p < q)%nat →
  l !! p = Some x → l !! q = Some y → R x y.
Proof.
  intros Hl. revert p q. induction Hl as [|z l Hl IH Hz]; intros p q Hpq Hp Hq.
  - done.
  - destruct q as [|q]; [lia|]. destruct p as [|p]; simpl in *.
    + injection Hp as ->. rewrite Forall_forall in Hz.
      apply Hz. by eapply list_elem_of_lookup_2.
    + apply (IH p q); [lia | done | done].
Qed.

Lemma lex_lt_NoDup l : StronglySorted lex_lt l → NoDup l.
Proof.
  induction 1 as [|e l Hl IH He]; constructor; [|done].
  intros Hin. rewrite Forall_forall in He.
  specialize (He e Hin). unfold lex_lt in He. lia.
Qed.

(** ** Arithmetic of [igraph_integer_t] *)

Lemma IGRAPH_INTEGER_MAX_nonneg : 0 ≤ IGRAPH_INTEGER_MAX.
Proof.
  unfold IGRAPH_INTEGER_MAX.
  assert (0 < 2 ^ (Z.pos IGRAPH_INTEGER_SIZE - 1)) by (apply Z.pow_pos_nonneg; lia).
  lia.
Qed.

Lemma wrap_id z :
  - IGRAPH_INTEGER_MAX - 1 ≤ z ≤ IGRAPH_INTEGER_MAX → wrap z = z.
Proof. intros Hz. unfold wrap. rewrite Z.mod_small by lia. lia. Qed.

Lemma wrap_bounds z :
  - IGRAPH_INTEGER_MAX - 1 ≤ wrap z ≤ IGRAPH_INTEGER_MAX.
Proof.
  pose proof IGRAPH_INTEGER_MAX_nonneg as HM. unfold wrap.
  pose proof (Z.mod_pos_bound (z + (IGRAPH_INTEGER_MAX + 1))
                (2 * (IGRAPH_INTEGER_MAX + 1))) as Hmod.
  lia.
Qed.

(** Wrap-around never enlarges a number that is not below the type's range. *)
Lemma wrap_le z :
  - IGRAPH_INTEGER_MAX - 1 ≤ z → wrap z ≤ z.
Proof.
  pose proof IGRAPH_INTEGER_MAX_nonneg as HM. intros Hz. unfold wrap.
  pose proof (Z.mod_le (z + (IGRAPH_INTEGER_MAX + 1))
                (2 * (IGRAPH_INTEGER_MAX + 1))) as Hmod.
  lia.
Qed.

(** ** What [igraph_full_citation] computes *)

(** The size [n * (n - 1)] is computed exactly when it is representable. *)
Lemma citation_size n :
  n * (n - 1) ≤ IGRAPH_INTEGER_MAX → int_mul n (int_sub n 1) = n * (n - 1).
Proof.
  pose proof IGRAPH_INTEGER_MAX_nonneg as HM.
  intros Hfit. unfold int_mul, int_sub.
  rewrite (wrap_id (n - 1)) by nia. apply wrap_id. nia.
Qed.

Lemma store_inv N ws x o :
  fill_inv N ws o → Z.of_nat (length ws) < N →
  fill_inv N (ws ++ [x]) (o ≫= store x).
Proof.
  intros (st & -> & Hlen & Hptr & Htake & Hlog) Hroom.
  simpl. unfold store, VECTOR_set. rewrite Hptr.
  case_decide; [|lia]. simpl. eexists. split; [reflexivity|]. simpl.
  rewrite Nat2Z.id, length_insert, length_app, Hlog. simpl.
  repeat split.
  - done.
  - lia.
  - replace (length ws + 1)%nat with (S (length ws)) by lia.
    rewrite (take_S_r _ _ x), take_insert_ge, Htake by
      (done || apply list_lookup_insert_eq; lia).
    done.
  - replace (Z.of_nat (length ws + 1)) with (Z.of_nat (S (length ws))) by lia.
    by rewrite seqZ_S.
Qed.

(** One round of the inner loop stores the two ends of the edge [(i, j)]. *)
Lemma store_edge_inv N ws i j (o : outcome fill_state) :
  fill_inv N ws o → Z.of_nat (length ws) + 2 ≤ N →
  fill_inv N (ws ++ flatten [(i, j)]) (st ← o; st ← store i st; store j st).
Proof.
  intros Ho Hroom.
  replace (st ← o; st ← store i st; store j st) with ((o ≫= store i) ≫= store j)
    by (by destruct o).
  change (flatten [(i, j)]) with ([i] ++ [j]). rewrite app_assoc.
  apply store_inv; [apply store_inv; [done | lia] |].
  rewrite length_app. simpl. lia.
Qed.

Lemma length_citation_slots i :
  1 ≤ i →
  Z.of_nat (length (flatten (seqZ 1 (i - 1) ≫= λ i', row i' 0 i'))) = i * (i - 1).
Proof.
  intros Hi. rewrite flatten_bind.
  rewrite (length_bind_seqZ _ (λ k, k * (k + 1))); [lia | lia | done |].
  intros k Hk. rewrite length_flatten, length_row. lia.
Qed.

(** The two loops fill a vector of [n * (n - 1)] slots with the citation
    enumeration, slot after slot. *)
Lemma citation_loops_inv n st0 :
  0 ≤ n →
  Z.of_nat (length (stor (edges_of st0))) = n * (n - 1) →
  ptr st0 = 0 → written st0 = [] →
  fill_inv (n * (n - 1)) (flatten (citation_enumeration n))
    (for_loop 1 n (λ i (st : outcome fill_state),
       for_loop 0 i (λ j (st : outcome fill_state),
         st ← st; st ← store i st; store j st) st) (Done st0)).
Proof.
  intros Hn Hlen Hptr Hlog.
  assert (fill_inv (n * (n - 1)) [] (Done st0)) as Hentry.
  { exists st0. by rewrite Hptr, Hlog. }
  destruct (decide (1 ≤ n)) as [Hn1|Hn0]; cycle 1.
  { rewrite for_loop_nil by lia. unfold citation_enumeration.
    by rewrite seqZ_nil by lia. }
  unfold citation_enumeration.
  apply for_loop_invariant with
    (P := λ i o, fill_inv (n * (n - 1))
                   (flatten (seqZ 1 (i - 1) ≫= λ i', row i' 0 i')) o);
    [done | by rewrite seqZ_nil by lia |].
  intros i o Hi Ho.
  replace (i + 1 - 1) with ((i - 1) + 1) by lia.
  rewrite seqZ_app, bind_app, flatten_app by lia.
  replace (1 + (i - 1)) with i by lia.
  rewrite (seqZ_cons i 1), (seqZ_nil (Z.succ i)) by lia.
  rewrite bind_singleton.
  set (ws := flatten (seqZ 1 (i - 1) ≫= λ i', row i' 0 i')) in *.
  assert (Z.of_nat (length ws) = i * (i - 1)) as Hws
    by (apply length_citation_slots; lia).
  apply for_loop_invariant with
    (P := λ j o', fill_inv (n * (n - 1)) (ws ++ flatten (row i 0 j)) o');
    [lia | |].
  - unfold row. rewrite seqZ_nil by lia. simpl. by rewrite app_nil_r.
  - intros j o' Hj Ho'.
    replace (row i 0 (j + 1)) with (row i 0 j ++ [(i, j)]); cycle 1.
    { unfold row. replace (j + 1 - 0) with ((j - 0) + 1) by lia.
      rewrite seqZ_app, fmap_app by lia.
      replace (0 + (j - 0)) with j by lia.
      by rewrite (seqZ_cons j 1), (seqZ_nil (Z.succ j)) by lia. }
    rewrite flatten_app, app_assoc. apply store_edge_inv; [done|].
    rewrite length_app, length_flatten, length_row. nia.
Qed.

Lemma length_citation_enumeration n :
  0 ≤ n → Z.of_nat (length (citation_enumeration n)) = n * (n - 1) / 2.
Proof.
  intros Hn. unfold citation_enumeration.
  destruct (decide (1 ≤ n)) as [Hn1|Hn0]; cycle 1.
  { rewrite seqZ_nil by lia. by replace n with 0 by lia. }
  rewrite (length_bind_seqZ _ (λ k, k * (k + 1) / 2)); [| lia | done |].
  - f_equal. lia.
  - intros k Hk. rewrite length_row.
    replace ((k + 1) * (k + 1 + 1)) with (k * (k + 1) + (k + 1) * 2) by lia.
    rewrite Z.div_add by done. lia.
Qed.

(** From [n >= 0] on, and when the size [n * (n - 1)] is representable,
    [igraph_full_citation] reaches [igraph_create] with the vector holding the
    citation enumeration, flattened. *)
Lemma igraph_full_citation_fill_spec n :
  0 ≤ n → n * (n - 1) ≤ IGRAPH_INTEGER_MAX →
  ∃ st, igraph_full_citation_fill n = Done st
    ∧ stor (edges_of st) = flatten (citation_enumeration n)
    ∧ Z.of_nat (length (stor (edges_of st))) = n * (n - 1)
    ∧ ptr st = n * (n - 1)
    ∧ written st = seqZ 0 (n * (n - 1)).
Proof.
  intros Hn Hfit. unfold igraph_full_citation_fill.
  rewrite citation_size by done. simpl.
  edestruct (citation_loops_inv n) as (st & -> & Hlen & Hptr & Htake & Hlog);
    [done | | reflexivity | reflexivity |].
  { simpl. rewrite length_replicate. nia. }
  assert (Z.of_nat (length (flatten (citation_enumeration n))) = n * (n - 1))
    as Hslots.
  { destruct (decide (1 ≤ n)) as [Hn1|Hn0].
    - by apply length_citation_slots.
    - unfold citation_enumeration. rewrite seqZ_nil by lia. simpl. lia. }
  exists st. rewrite Hptr, Hlog, Hslots.
  rewrite take_ge in Htake by lia. done.
Qed.

Lemma store_cursor_inv L k x o :
  cursor_inv L k o → cursor_inv L (k + 1) (o ≫= store x).
Proof.
  intros Ho st' Hst'. destruct o as [st| |]; simpl in Hst'; try discriminate.
  destruct (Ho st eq_refl) as (HL & Hk & _).
  unfold store, VECTOR_set in Hst'.
  case_decide; simpl in Hst'; [|discriminate].
  injection Hst' as <-. simpl. rewrite length_insert. lia.
Qed.

(** When every store of the two loops stays inside the vector, the vector
    has at least [n * (n - 1)] slots. *)
Lemma citation_loops_cursor n st0 st :
  1 ≤ n → ptr st0 = 0 →
  for_loop 1 n (λ i (st : outcome fill_state),
    for_loop 0 i (λ j (st : outcome fill_state),
      st ← st; st ← store i st; store j st) st) (Done st0) = Done st →
  n * (n - 1) ≤ Z.of_nat (length (stor (edges_of st0))).
Proof.
  intros Hn Hptr Hst.
  set (L := Z.of_nat (length (stor (edges_of st0)))).
  enough (cursor_inv L (n * (n - 1))
            (for_loop 1 n (λ i (st : outcome fill_state),
               for_loop 0 i (λ j (st : outcome fill_state),
                 st ← st; st ← store i st; store j st) st) (Done st0))) as Hinv.
  { destruct (Hinv st Hst) as (_ & _ & Hle). done. }
  apply for_loop_invariant with (P := λ i o, cursor_inv L (i * (i - 1)) o);
    [done | |].
  - intros st' [= <-]. subst L. lia.
  - intros i o Hi Ho.
    replace ((i + 1) * (i + 1 - 1)) with (i * (i - 1) + 2 * i) by lia.
    apply for_loop_invariant with
      (P := λ j o', cursor_inv L (i * (i - 1) + 2 * j) o'); [lia | |].
    + by rewrite Z.add_0_r.
    + intros j o' Hj Ho'.
      replace (st ← o'; st ← store i st; store j st)
        with ((o' ≫= store i) ≫= store j) by (by destruct o').
      replace (i * (i - 1) + 2 * (j + 1)) with (i * (i - 1) + 2 * j + 1 + 1) by lia.
      by do 2 apply store_cursor_inv.
Qed.

(** [igraph_full_citation] reaches [igraph_create] only when the size
    [n * (n - 1)] is representable. *)
Lemma igraph_full_citation_fill_Done n st :
  0 ≤ n → igraph_full_citation_fill n = Done st →
  n * (n - 1) ≤ IGRAPH_INTEGER_MAX.
Proof.
  pose proof IGRAPH_INTEGER_MAX_nonneg as HM.
  intros Hn Hst. destruct (decide (1 ≤ n)) as [Hn1|Hn0]; [|nia].
  unfold igraph_full_citation_fill in Hst. simpl in Hst.
  apply citation_loops_cursor in Hst; [|done..].
  simpl in Hst. rewrite length_replicate in Hst.
  pose proof (wrap_bounds (n * int_sub n 1)). unfold int_mul in Hst. lia.
Qed.

Lemma igraph_full_create n directed loops v :
  igraph_full_edges n directed loops = Done v →
  igraph_full n directed loops = igraph_create (stor v) n directed.
Proof. intros Hv. unfold igraph_full. by rewrite Hv. Qed.

Lemma igraph_full_citation_create n directed st :
  igraph_full_citation_fill n = Done st →
  igraph_full_citation n directed = igraph_create (stor (edges_of st)) n directed.
Proof. intros Hst. unfold igraph_full_citation. by rewrite Hst. Qed.

(** ** The reserved capacity of [igraph_full] *)

Lemma for_loop_preserves {S : Type} (Q : S → Prop) lo hi (body : Z → S → S) s :
  Q s →
  (∀ i s', lo ≤ i < hi → Q s' → Q (body i s')) →
  Q (for_loop lo hi body s).
Proof.
  intros Hs Hbody. destruct (decide (lo ≤ hi)) as [Hle|Hgt].
  - by apply for_loop_invariant with (P := λ _ s', Q s').
  - by rewrite for_loop_nil by lia.
Qed.

Lemma push_back_reserved_inv cap0 v e :
  reserved_inv cap0 v → reserved_inv cap0 (igraph_vector_push_back v e).
Proof.
  intros [Hfit Hcap]. unfold reserved_inv, igraph_vector_push_back.
  case_decide; simpl; rewrite length_app; simpl; split; (lia || done || auto).
Qed.

Lemma int_mul_square_le n :
  int_mul n n ≤ n * n.
Proof. pose proof IGRAPH_INTEGER_MAX_nonneg. apply wrap_le. nia. Qed.

Lemma int_mul_pred_le n :
  0 ≤ n → int_mul n (int_sub n 1) ≤ n * (n - 1).
Proof.
  pose proof IGRAPH_INTEGER_MAX_nonneg as HM. intros Hn. unfold int_mul, int_sub.
  destruct (decide (n - 1 ≤ IGRAPH_INTEGER_MAX)) as [Hfit|Hover].
  - rewrite (wrap_id (n - 1)) by lia. apply wrap_le. nia.
  - pose proof (wrap_bounds (n * wrap (n - 1))). nia.
Qed.

Lemma int_mul_succ_le n :
  0 ≤ n → int_mul n (int_add n 1) ≤ n * (n + 1).
Proof.
  pose proof IGRAPH_INTEGER_MAX_nonneg as HM. intros Hn. unfold int_mul, int_add.
  destruct (decide (n + 1 ≤ IGRAPH_INTEGER_MAX)) as [Hfit|Hover].
  - rewrite (wrap_id (n + 1)) by lia. apply wrap_le. nia.
  - pose proof (wrap_bounds (n * wrap (n + 1))). nia.
Qed.

Lemma int_div_two_le w x :
  - IGRAPH_INTEGER_MAX - 1 ≤ w ≤ IGRAPH_INTEGER_MAX →
  w ≤ x → 0 ≤ x → int_div w 2 ≤ x / 2.
Proof.
  pose proof IGRAPH_INTEGER_MAX_nonneg as HM. intros Hw Hwx Hx. unfold int_div.
  assert (0 ≤ x / 2) by (apply Z.div_pos; lia).
  destruct (decide (0 ≤ w)) as [Hpos|Hneg].
  - rewrite Z.quot_div_nonneg by lia.
    assert (w / 2 ≤ x / 2) by (apply Z.div_le_mono; lia).
    assert (0 ≤ w / 2 ≤ w) by (split; [apply Z.div_pos; lia | apply Z.div_le_upper_bound; lia]).
    rewrite wrap_id; lia.
  - assert (w ≤ w `quot` 2 ≤ 0).
    { clear -Hneg. Z.to_euclidean_division_equations. lia. }
    rewrite wrap_id; lia.
Qed.

(** The loops of [igraph_full] only append, so they keep [reserved_inv]; what
    is left to show is the bound on the reserved capacity [c]. *)
Local Ltac exists_reserved c :=
  eexists _, c; split; [reflexivity|]; split;
  [| repeat (apply for_loop_preserves; [|intros]);
     repeat apply push_back_reserved_inv; try done;
     split; simpl; [lia | done] ].

(** [igraph_full] reserves no more slots than the variant has edges. *)
Lemma igraph_full_edges_reserved n directed loops :
  0 ≤ n →
  ∃ v cap0, igraph_full_edges n directed loops = Done v
    ∧ cap0 ≤ full_count n directed loops
    ∧ reserved_inv (Z.max 0 cap0) v.
Proof.
  intros Hn. unfold igraph_full_edges, full_count. case_decide; [lia|].
  destruct directed, loops; simpl.
  - exists_reserved (int_mul n n). apply int_mul_square_le.
  - exists_reserved (int_mul n (int_sub n 1)). by apply int_mul_pred_le.
  - exists_reserved (int_div (int_mul n (int_add n 1)) 2).
    apply int_div_two_le; [apply wrap_bounds | | nia].
    by apply int_mul_succ_le.
  - exists_reserved (int_div (int_mul n (int_sub n 1)) 2).
    apply int_div_two_le; [apply wrap_bounds | | nia].
    by apply int_mul_pred_le.
Qed.

(** ** The claims about [igraph_full] *)

(** C1. For every [n >= 0] and every combination of [directed] and [loops],
    the edge list [igraph_full] produces and passes to [igraph_create] has
    exactly the closed-form number of edges of the variant ([n * n],
    [n * (n - 1)], [n * (n + 1) / 2], [n * (n - 1) / 2]), holds no edge
    twice, and holds exactly the pairs the variant owns, so none is
    omitted. *)
Theorem full_edge_count n directed loops :
  0 ≤ n →
  ∃ v, igraph_full_edges n directed loops = Done v
    ∧ igraph_full n directed loops = igraph_create (stor v) n directed
    ∧ Z.of_nat (length (edge_list (stor v))) = full_count n directed loops
    ∧ NoDup (edge_list (stor v))
    ∧ (∀ e, e ∈ edge_list (stor v) ↔ full_member n directed loops e).
Proof.
  intros Hn. destruct (igraph_full_edges_spec n directed loops Hn) as (v & Hv & Hstor).
  exists v. rewrite (igraph_full_create _ _ _ _ Hv), Hstor, edge_list_flatten.
  split; [done|]. split; [done|]. split; [|split].
  - by apply length_full_enumeration.
  - apply lex_lt_NoDup, StronglySorted_full_enumeration.
  - intros e. apply elem_of_full_enumeration.
Qed.

(** C5. [igraph_full] fails with [IGRAPH_EINVAL] for every [n < 0], whatever
    the graph constructor would do: no edge vector is built and the
    constructor is not reached. [n = 0] is accepted for every combination of
    the flags: the edge vector is empty and the result is that of the
    constructor on the empty edge list. *)
Theorem full_negative_rejected_zero_accepted n directed loops :
  (n < 0 →
     igraph_full_edges n directed loops = Raise IGRAPH_EINVAL
     ∧ igraph_full n directed loops = Raise IGRAPH_EINVAL)
  ∧ (n = 0 →
     ∃ v, igraph_full_edges n directed loops = Done v
       ∧ stor v = []
       ∧ igraph_full n directed loops = igraph_create [] 0 directed).
Proof.
  split.
  - intros Hneg. unfold igraph_full, igraph_full_edges.
    by case_decide; [|lia].
  - intros ->.
    destruct (igraph_full_edges_spec 0 directed loops) as (v & Hv & Hstor); [done|].
    exists v. rewrite (igraph_full_create _ _ _ _ Hv), Hstor.
    unfold full_enumeration. by rewrite seqZ_nil.
Qed.

(** C6. For every [n >= 0] and every variant, an edge emitted earlier has a
    first index that is not larger, and of two edges with the same first
    index the one emitted earlier has the smaller second index; in the
    directed variant without loops, every edge [(i, j)] with [j < i] is
    emitted before every edge [(i, j')] with [j' > i]. *)
Theorem full_emission_order n directed loops :
  0 ≤ n →
  ∃ v, igraph_full_edges n directed loops = Done v
    ∧ (∀ (p q : nat) e1 e2,
         (p < q)%nat →
         edge_list (stor v) !! p = Some e1 →
         edge_list (stor v) !! q = Some e2 →
         e1.1 ≤ e2.1 ∧ (e1.1 = e2.1 → e1.2 < e2.2))
    ∧ (directed = true → loops = false →
       ∀ (p q : nat) i j j',
         edge_list (stor v) !! p = Some (i, j) →
         edge_list (stor v) !! q = Some (i, j') →
         j < i → i < j' → (p < q)%nat).
Proof.
  intros Hn. destruct (igraph_full_edges_spec n directed loops Hn) as (v & Hv & Hstor).
  exists v. rewrite Hstor, edge_list_flatten.
  pose proof (StronglySorted_full_enumeration n directed loops) as Hsorted.
  split; [done|]. split.
  - intros p q e1 e2 Hpq Hp Hq.
    pose proof (StronglySorted_lookup _ _ _ _ _ _ Hsorted Hpq Hp Hq) as Hlt.
    unfold lex_lt in Hlt. lia.
  - intros _ _ p q i j j' Hp Hq Hj Hj'.
    destruct (decide (p < q)%nat) as [|Hge]; [done|]. exfalso.
    destruct (decide (p = q)) as [->|Hne].
    + rewrite Hp in Hq. injection Hq as ->. lia.
    + assert (q < p)%nat as Hqp by lia.
      pose proof (StronglySorted_lookup _ _ _ _ _ _ Hsorted Hqp Hq Hp) as Hlt.
      unfold lex_lt in Hlt. simpl in Hlt. lia.
Qed.

(** C9. The directed variant with loops at [n = 3] emits the self-loops
    [(0, 0)], [(1, 1)] and [(2, 2)]; the directed variant without loops emits
    no edge [(i, i)], for any [i] and any [n >= 0]. *)
Theorem directed_self_loops n :
  0 ≤ n →
  (∃ v, igraph_full_edges 3 true true = Done v
     ∧ (0, 0) ∈ edge_list (stor v)
     ∧ (1, 1) ∈ edge_list (stor v)
     ∧ (2, 2) ∈ edge_list (stor v))
  ∧ (∃ v, igraph_full_edges n true false = Done v
     ∧ ∀ i, (i, i) ∉ edge_list (stor v)).
Proof.
  intros Hn. split.
  - destruct (igraph_full_edges_spec 3 true true) as (v & Hv & Hstor); [done|].
    exists v. rewrite Hstor, edge_list_flatten. split; [done|].
    repeat split; apply elem_of_full_enumeration; unfold full_member; simpl; lia.
  - destruct (igraph_full_edges_spec n true false Hn) as (v & Hv & Hstor).
    exists v. rewrite Hstor, edge_list_flatten. split; [done|].
    intros i Hi%elem_of_full_enumeration.
    unfold full_member in Hi. simpl in Hi. lia.
Qed.

(** C3, as the code has it. [igraph_full] reserves one slot per edge and
    then appends two: whenever the variant has an edge at all, an append
    after the reserve finds the storage full and enlarges it. *)
Theorem full_reserve_too_small n directed loops :
  0 ≤ n → 0 < full_count n directed loops →
  ∃ v, igraph_full_edges n directed loops = Done v
    ∧ (0 < push_reallocs v)%nat.
Proof.
  intros Hn Hcount.
  destruct (igraph_full_edges_reserved n directed loops Hn)
    as (v & cap0 & Hv & Hcap & Hfit & Hsame).
  destruct (igraph_full_edges_spec n directed loops Hn) as (v' & Hv' & Hstor).
  rewrite Hv in Hv'. injection Hv' as <-.
  exists v. split; [done|].
  destruct (push_reallocs v) as [|k]; [|lia]. exfalso.
  rewrite Hstor, length_flatten, Hsame in Hfit by done.
  pose proof (length_full_enumeration n directed loops Hn). lia.
Qed.

(** ** The claims about [igraph_full_citation] *)

(** C2, amended. For every [n >= 0], [igraph_full_citation] reaches
    [igraph_create] when its size [n * (n - 1)] is representable, and
    whenever it does it has emitted, for [i] from [1] to [n - 1] and for [j]
    from [0] to [i - 1], the edge [(i, j)], in increasing order of [i] and
    for fixed [i] in increasing order of [j]; these are [n * (n - 1) / 2]
    edges, in [n * (n - 1)] slots; at [n = 4] they are
    [(1,0), (2,0), (2,1), (3,0), (3,1), (3,2)] in that order. *)
Theorem citation_emission n :
  0 ≤ n →
  (n * (n - 1) ≤ IGRAPH_INTEGER_MAX →
     ∃ st, igraph_full_citation_fill n = Done st)
  ∧ (∀ st, igraph_full_citation_fill n = Done st →
       edge_list (stor (edges_of st)) = citation_enumeration n
       ∧ (∀ e, e ∈ edge_list (stor (edges_of st)) ↔ 0 ≤ e.2 < e.1 ∧ e.1 < n)
       ∧ (∀ (p q : nat) e1 e2,
            (p < q)%nat →
            edge_list (stor (edges_of st)) !! p = Some e1 →
            edge_list (stor (edges_of st)) !! q = Some e2 →
            e1.1 ≤ e2.1 ∧ (e1.1 = e2.1 → e1.2 < e2.2))
       ∧ Z.of_nat (length (edge_list (stor (edges_of st)))) = n * (n - 1) / 2
       ∧ Z.of_nat (length (stor (edges_of st))) = n * (n - 1)
       ∧ (n = 4 → edge_list (stor (edges_of st))
                  = [(1, 0); (2, 0); (2, 1); (3, 0); (3, 1); (3, 2)])).
Proof.
  intros Hn. split.
  { intros Hfit.
    destruct (igraph_full_citation_fill_spec n Hn Hfit) as (st & Hst & _).
    by exists st. }
  intros st Hst.
  pose proof (igraph_full_citation_fill_Done n st Hn Hst) as Hfit.
  destruct (igraph_full_citation_fill_spec n Hn Hfit)
    as (st' & Hst' & Hstor & Hlen & _).
  rewrite Hst in Hst'. injection Hst' as <-.
  rewrite Hlen, Hstor, edge_list_flatten.
  split; [done|]. split; [|split; [|split; [|split]]].
  - intros e. apply elem_of_citation_enumeration.
  - intros p q e1 e2 Hpq Hp Hq.
    pose proof (StronglySorted_lookup _ _ _ _ _ _
                  (StronglySorted_citation_enumeration n) Hpq Hp Hq) as Hlt.
    unfold lex_lt in Hlt. lia.
  - by apply length_citation_enumeration.
  - done.
  - by intros ->.
Qed.

(** C4, as the code has it. [igraph_full_citation] has no check of [n]: for
    [n < 0] (with a representable size) it builds a vector of [n * (n - 1)]
    zero slots, runs no round of its loops and calls the graph constructor
    with that vector and the negative [n]; it does not return
    [IGRAPH_EINVAL] by itself. *)
Theorem citation_negative_not_rejected n directed :
  n < 0 → n * (n - 1) ≤ IGRAPH_INTEGER_MAX →
  igraph_full_citation_fill n
    = Done {| edges_of := {| stor := replicate (Z.to_nat (n * (n - 1))) 0;
                             capacity := n * (n - 1);
                             push_reallocs := 0 |};
              ptr := 0;
              written := [] |}
  ∧ igraph_full_citation n directed
    = igraph_create (replicate (Z.to_nat (n * (n - 1))) 0) n directed.
Proof.
  intros Hneg Hfit.
  assert (igraph_full_citation_fill n
    = Done {| edges_of := {| stor := replicate (Z.to_nat (n * (n - 1))) 0;
                             capacity := n * (n - 1);
                             push_reallocs := 0 |};
              ptr := 0;
              written := [] |}) as Hfill.
  { unfold igraph_full_citation_fill. rewrite citation_size by done. simpl.
    rewrite for_loop_nil by lia. do 3 f_equal. nia. }
  split; [done|]. by rewrite (igraph_full_citation_create _ _ _ Hfill).
Qed.

(** ** Both generators *)

(** C7. For every [n >= 0], every edge [(u, v)] either generator emits has
    [u] and [v] in [[0, n)], and the vector passed to [igraph_create] is a
    sequence of whole edges: for every variant of [igraph_full], which
    always reaches the constructor, and for [igraph_full_citation], which
    reaches it when its size [n * (n - 1)] is representable. *)
Theorem emitted_indices_in_range n :
  0 ≤ n →
  (∀ directed loops,
     ∃ v, igraph_full_edges n directed loops = Done v
       ∧ igraph_full n directed loops = igraph_create (stor v) n directed
       ∧ stor v = flatten (edge_list (stor v))
       ∧ ∀ e, e ∈ edge_list (stor v) → 0 ≤ e.1 < n ∧ 0 ≤ e.2 < n)
  ∧ (n * (n - 1) ≤ IGRAPH_INTEGER_MAX →
     ∃ st, igraph_full_citation_fill n = Done st)
  ∧ (∀ st, igraph_full_citation_fill n = Done st →
       (∀ directed, igraph_full_citation n directed
                    = igraph_create (stor (edges_of st)) n directed)
       ∧ stor (edges_of st) = flatten (edge_list (stor (edges_of st)))
       ∧ ∀ e, e ∈ edge_list (stor (edges_of st)) → 0 ≤ e.1 < n ∧ 0 ≤ e.2 < n).
Proof.
  intros Hn. split; [|split].
  - intros directed loops.
    destruct (igraph_full_edges_spec n directed loops Hn) as (v & Hv & Hstor).
    exists v. rewrite (igraph_full_create _ _ _ _ Hv), Hstor, edge_list_flatten.
    repeat (split; [done|]).
    intros e He%elem_of_full_enumeration. unfold full_member in He. lia.
  - intros Hfit.
    destruct (igraph_full_citation_fill_spec n Hn Hfit) as (st & Hst & _).
    by exists st.
  - intros st Hst.
    pose proof (igraph_full_citation_fill_Done n st Hn Hst) as Hfit.
    destruct (igraph_full_citation_fill_spec n Hn Hfit) as (st' & Hst' & Hstor & _).
    rewrite Hst in Hst'. injection Hst' as <-. split.
    { intros directed. by apply igraph_full_citation_create. }
    rewrite Hstor, edge_list_flatten. split; [done|].
    intros e He%elem_of_citation_enumeration. lia.
Qed.

Lemma elem_of_unordered_citation n e :
  e ∈ unordered <$> citation_enumeration n ↔ 0 ≤ e.1 < e.2 ∧ e.2 < n.
Proof.
  rewrite list_elem_of_fmap. setoid_rewrite elem_of_citation_enumeration.
  unfold unordered. destruct e as [u v]; simpl. split.
  - intros ([i j] & [= -> ->] & Hij). simpl in *. lia.
  - intros Huv. exists (v, u). simpl. split; [f_equal; lia | lia].
Qed.

Lemma elem_of_unordered_full n e :
  e ∈ unordered <$> full_enumeration n false false ↔ 0 ≤ e.1 < e.2 ∧ e.2 < n.
Proof.
  rewrite list_elem_of_fmap. setoid_rewrite elem_of_full_enumeration.
  unfold unordered, full_member. destruct e as [u v]; simpl. split.
  - intros ([i j] & [= -> ->] & Hij). simpl in *. lia.
  - intros Huv. exists (u, v). simpl. split; [f_equal; lia | lia].
Qed.

(** ** Further properties of [igraph_full] *)

(** X1. As the documentation of [igraph_full] says, the complete graph on
    [n] vertices is a subgraph of the undirected version of every full graph:
    for every [n >= 0] and every variant, any two distinct vertices of
    [[0, n)] are joined by an edge of the list, in one direction or the
    other. *)
Theorem full_contains_complete_graph n directed loops u v :
  0 ≤ u < n → 0 ≤ v < n → u ≠ v →
  ∃ vec, igraph_full_edges n directed loops = Done vec
    ∧ ((u, v) ∈ edge_list (stor vec) ∨ (v, u) ∈ edge_list (stor vec)).
Proof.
  intros Hu Hv Huv.
  destruct (igraph_full_edges_spec n directed loops) as (vec & Hvec & Hstor); [lia|].
  exists vec. rewrite Hstor, edge_list_flatten, !elem_of_full_enumeration.
  split; [done|]. unfold full_member. simpl.
  destruct directed, loops; lia.
Qed.

(** X2. The full graph on [n] vertices is the subgraph the full graph on
    [m >= n] vertices (same variant) induces on the vertices [[0, n)]: an
    edge is in the list for [n] exactly when it is in the list for [m] and
    both its ends are below [n]. *)
Theorem full_induced_subgraph n m directed loops :
  0 ≤ n ≤ m →
  ∃ vn vm, igraph_full_edges n directed loops = Done vn
    ∧ igraph_full_edges m directed loops = Done vm
    ∧ ∀ e, e ∈ edge_list (stor vn)
           ↔ e ∈ edge_list (stor vm) ∧ e.1 < n ∧ e.2 < n.
Proof.
  intros Hnm.
  destruct (igraph_full_edges_spec n directed loops) as (vn & Hvn & Hn); [lia|].
  destruct (igraph_full_edges_spec m directed loops) as (vm & Hvm & Hm); [lia|].
  exists vn, vm. rewrite Hn, Hm, !edge_list_flatten.
  split; [done|]. split; [done|].
  intros e. rewrite !elem_of_full_enumeration. unfold full_member.
  destruct directed, loops; lia.
Qed.

Lemma elem_of_self_loops n e : e ∈ self_loops n ↔ e.1 = e.2 ∧ 0 ≤ e.1 < n.
Proof.
  unfold self_loops. rewrite list_elem_of_fmap. setoid_rewrite elem_of_seqZ.
  destruct e as [u v]; simpl. split.
  - intros (i & [= -> ->] & Hi). lia.
  - intros [-> Hv]. exists v. split; [done | lia].
Qed.

Lemma NoDup_self_loops n : NoDup (self_loops n).
Proof.
  unfold self_loops. apply NoDup_fmap_2_strong; [|apply NoDup_seqZ].
  by intros i j _ _ [= ->].
Qed.

Lemma NoDup_full_enumeration n directed loops :
  NoDup (full_enumeration n directed loops).
Proof. apply lex_lt_NoDup, StronglySorted_full_enumeration. Qed.

(** X3. With the [loops] flag the edge list is the one without the flag
    together with the [n] self-loops [(i, i)], each once: the two lists are
    permutations of each other, in the directed and in the undirected case. *)
Theorem full_loops_adds_self_loops n directed :
  0 ≤ n →
  ∃ vl v0, igraph_full_edges n directed true = Done vl
    ∧ igraph_full_edges n directed false = Done v0
    ∧ edge_list (stor vl) ≡ₚ edge_list (stor v0) ++ self_loops n.
Proof.
  intros Hn.
  destruct (igraph_full_edges_spec n directed true Hn) as (vl & Hvl & Hl).
  destruct (igraph_full_edges_spec n directed false Hn) as (v0 & Hv0 & H0).
  exists vl, v0. rewrite Hl, H0, !edge_list_flatten.
  split; [done|]. split; [done|].
  apply NoDup_Permutation.
  - apply NoDup_full_enumeration.
  - apply NoDup_app. split; [apply NoDup_full_enumeration|].
    split; [|apply NoDup_self_loops].
    intros e He%elem_of_full_enumeration Hloop%elem_of_self_loops.
    unfold full_member in He. destruct directed; simpl in He; lia.
  - intros e. rewrite elem_of_app, !elem_of_full_enumeration, elem_of_self_loops.
    unfold full_member. destruct directed; simpl; lia.
Qed.

(** X4. The directed full graph without loops is the undirected one with
    every edge in both directions: its edge list is a permutation of the
    undirected list followed by the same edges reversed. *)
Theorem full_directed_is_both_directions n :
  0 ≤ n →
  ∃ vd vu, igraph_full_edges n true false = Done vd
    ∧ igraph_full_edges n false false = Done vu
    ∧ edge_list (stor vd)
      ≡ₚ edge_list (stor vu) ++ (prod_swap <$> edge_list (stor vu)).
Proof.
  intros Hn.
  destruct (igraph_full_edges_spec n true false Hn) as (vd & Hvd & Hd).
  destruct (igraph_full_edges_spec n false false Hn) as (vu & Hvu & Hu).
  exists vd, vu. rewrite Hd, Hu, !edge_list_flatten.
  split; [done|]. split; [done|].
  assert (∀ e, e ∈ prod_swap <$> full_enumeration n false false
               ↔ 0 ≤ e.2 < e.1 ∧ e.1 < n) as Hswap.
  { intros [a b]. rewrite list_elem_of_fmap.
    setoid_rewrite elem_of_full_enumeration. unfold full_member, prod_swap.
    simpl. split.
    - intros ([i j] & [= -> ->] & Hij). simpl in Hij. lia.
    - intros Hab. exists (b, a). simpl. split; [done | lia]. }
  apply NoDup_Permutation.
  - apply NoDup_full_enumeration.
  - apply NoDup_app. split; [apply NoDup_full_enumeration|]. split.
    + intros e He%elem_of_full_enumeration Hrev%Hswap.
      unfold full_member in He. simpl in He. lia.
    + apply NoDup_fmap_2_strong; [|apply NoDup_full_enumeration].
      intros [a b] [a' b'] _ _ [= -> ->]. done.
  - intros e. rewrite elem_of_app, Hswap, !elem_of_full_enumeration.
    unfold full_member. simpl. lia.
Qed.

(** ** Further properties of [igraph_full_citation] *)

(** X5. As its documentation says, the full citation graph has the edge
    [i -> j] exactly when [j < i]: on the vertices [[0, n)] its edges are a
    strict linear order. No vertex cites itself, citing is transitive, no
    two vertices cite each other, any two distinct vertices are joined one
    way, and no edge is listed twice. So the directed graph has no cycle. *)
Theorem citation_strict_order n :
  0 ≤ n → n * (n - 1) ≤ IGRAPH_INTEGER_MAX →
  ∃ st, igraph_full_citation_fill n = Done st
    ∧ NoDup (edge_list (stor (edges_of st)))
    ∧ (∀ a, (a, a) ∉ edge_list (stor (edges_of st)))
    ∧ (∀ a b c, (a, b) ∈ edge_list (stor (edges_of st)) →
                (b, c) ∈ edge_list (stor (edges_of st)) →
                (a, c) ∈ edge_list (stor (edges_of st)))
    ∧ (∀ a b, (a, b) ∈ edge_list (stor (edges_of st)) →
              (b, a) ∉ edge_list (stor (edges_of st)))
    ∧ (∀ a b, 0 ≤ a < n → 0 ≤ b < n → a ≠ b →
              (a, b) ∈ edge_list (stor (edges_of st))
              ∨ (b, a) ∈ edge_list (stor (edges_of st))).
Proof.
  intros Hn Hfit.
  destruct (igraph_full_citation_fill_spec n Hn Hfit) as (st & Hst & Hstor & _).
  exists st. rewrite Hstor, edge_list_flatten. split; [done|].
  split; [apply lex_lt_NoDup, StronglySorted_citation_enumeration|].
  repeat split; intros *; rewrite !elem_of_citation_enumeration; simpl; lia.
Qed.

Lemma citation_enumeration_succ n :
  0 ≤ n → citation_enumeration (n + 1) = citation_enumeration n ++ row n 0 n.
Proof.
  intros Hn. unfold citation_enumeration.
  destruct (decide (n = 0)) as [->|Hn0]; [done|].
  replace (n + 1 - 1) with ((n - 1) + 1) by lia.
  rewrite seqZ_app, bind_app by lia.
  replace (1 + (n - 1)) with n by lia.
  by rewrite (seqZ_cons n 1), (seqZ_nil (Z.succ n)), bind_singleton by lia.
Qed.

(** X6. One more vertex only appends: the edge list of the citation graph
    on [n + 1] vertices is the edge list on [n] vertices followed by the
    edges [(n, 0)], ..., [(n, n - 1)] from the new vertex to all the others,
    so the edges of the smaller graph keep their positions. *)
Theorem citation_grows_by_appending n :
  0 ≤ n → (n + 1) * n ≤ IGRAPH_INTEGER_MAX →
  ∃ st st', igraph_full_citation_fill n = Done st
    ∧ igraph_full_citation_fill (n + 1) = Done st'
    ∧ edge_list (stor (edges_of st'))
      = edge_list (stor (edges_of st)) ++ ((λ j, (n, j)) <$> seqZ 0 n).
Proof.
  intros Hn Hfit.
  destruct (igraph_full_citation_fill_spec n) as (st & Hst & Hstor & _);
    [lia | nia |].
  destruct (igraph_full_citation_fill_spec (n + 1)) as (st' & Hst' & Hstor' & _);
    [lia | by replace (n + 1 - 1) with n by lia |].
  exists st, st'. rewrite Hstor, Hstor', !edge_list_flatten.
  split; [done|]. split; [done|].
  rewrite citation_enumeration_succ by done. unfold row.
  by rewrite Z.sub_0_r.
Qed.

(** The stores of [igraph_full_citation] fail by leaving the vector, never
    with an error code. *)
Lemma store_no_error x (o : outcome fill_state) :
  (∀ e, o ≠ Raise e) → ∀ e, o ≫= store x ≠ Raise e.
Proof.
  intros Ho e. destruct o as [st|e'|]; simpl; [|by apply Ho|done].
  unfold store, VECTOR_set. by case_decide.
Qed.

Lemma igraph_full_citation_fill_no_error n e :
  igraph_full_citation_fill n ≠ Raise e.
Proof.
  unfold igraph_full_citation_fill. simpl. revert e.
  apply (for_loop_preserves (λ o : outcome fill_state, ∀ e, o ≠ Raise e));
    [done|].
  intros i o _ Ho.
  apply (for_loop_preserves (λ o : outcome fill_state, ∀ e, o ≠ Raise e));
    [done|].
  intros j o' _ Ho'.
  replace (st ← o'; st ← store i st; store j st)
    with ((o' ≫= store i) ≫= store j) by (by destruct o').
  by do 2 apply store_no_error.
Qed.

(** X7. [igraph_full_citation] does not guard the size computation: for
    [n >= 0] whose size [n * (n - 1)] is not representable in
    [igraph_integer_t], the vector is too short, a store
    [VECTOR(edges)[ptr++] = ...] leaves it, and the call never reaches
    [igraph_create]. *)
Theorem citation_size_overflow n directed :
  0 ≤ n → IGRAPH_INTEGER_MAX < n * (n - 1) →
  igraph_full_citation_fill n = Undefined
  ∧ igraph_full_citation n directed = Undefined.
Proof.
  intros Hn Hover.
  assert (igraph_full_citation_fill n = Undefined) as Hfill.
  { destruct (igraph_full_citation_fill n) as [st|e|] eqn:Hst; [| |done].
    - apply igraph_full_citation_fill_Done in Hst; [lia | done].
    - by apply igraph_full_citation_fill_no_error in Hst. }
  split; [done|]. unfold igraph_full_citation. by rewrite Hfill.
Qed.

(** ** Positions of the edges *)

Lemma lookup_row i lo hi (k : nat) :
  Z.of_nat k < hi - lo → row i lo hi !! k = Some (i, lo + Z.of_nat k).
Proof.
  intros Hk. unfold row. by rewrite list_lookup_fmap, lookup_seqZ_lt by lia.
Qed.

(** In a concatenation of rows, the row of [lo + i] starts where the
    summation formula [F] of the row lengths says. *)
Lemma lookup_bind_seqZ {T : Type} (g : Z → list T) (F : Z → Z) lo n i (k : nat) :
  F 0 = 0 →
  (∀ m, 0 ≤ m < n → F (m + 1) = F m + Z.of_nat (length (g (lo + m)))) →
  0 ≤ i < n → (k < length (g (lo + i)%Z))%nat →
  (seqZ lo n ≫= g) !! (Z.to_nat (F i) + k)%nat = g (lo + i) !! k.
Proof.
  intros HF0 HF Hi Hk.
  assert (Z.of_nat (length (seqZ lo i ≫= g)) = F i) as Hstart.
  { apply length_bind_seqZ; [lia | done |]. intros m Hm. apply HF. lia. }
  replace (seqZ lo n) with (seqZ lo (i + (n - i))) by (f_equal; lia).
  rewrite seqZ_app, bind_app by lia.
  rewrite lookup_app_r by lia.
  replace (Z.to_nat (F i) + k - length (seqZ lo i ≫= g))%nat with k by lia.
  rewrite seqZ_cons, bind_cons by lia. by rewrite lookup_app_l.
Qed.

Lemma full_row_start_step n directed loops i :
  0 ≤ i < n →
  full_row_start n directed loops (i + 1)
  = full_row_start n directed loops i
    + Z.of_nat (length (full_rule n directed loops i)).
Proof.
  intros Hi. rewrite length_full_rule by done. unfold full_row_start.
  destruct directed, loops; [lia | lia | |].
  - replace ((i + 1) * (2 * n - (i + 1) + 1))
      with (i * (2 * n - i + 1) + (n - i) * 2) by lia.
    by rewrite Z.div_add.
  - replace ((i + 1) * (2 * n - (i + 1) - 1))
      with (i * (2 * n - i - 1) + (n - i - 1) * 2) by lia.
    by rewrite Z.div_add.
Qed.

Lemma full_row_start_nonneg n directed loops i :
  0 ≤ i < n → 0 ≤ full_row_start n directed loops i.
Proof.
  intros Hi. unfold full_row_start.
  destruct directed, loops; try nia; apply Z.div_pos; nia.
Qed.

Lemma lookup_full_rule n directed loops i j :
  full_member n directed loops (i, j) →
  0 ≤ full_row_offset directed loops i j
  ∧ full_rule n directed loops i !! Z.to_nat (full_row_offset directed loops i j)
    = Some (i, j).
Proof.
  unfold full_member, full_rule, full_row_offset. simpl. intros Hij.
  destruct directed, loops.
  - split; [lia|]. rewrite lookup_row by lia. do 2 f_equal. lia.
  - case_decide.
    + split; [lia|]. rewrite lookup_app_l by (rewrite length_row; lia).
      rewrite lookup_row by lia. do 2 f_equal. lia.
    + split; [lia|]. rewrite lookup_app_r by (rewrite length_row; lia).
      rewrite length_row, lookup_row by lia. do 2 f_equal. lia.
  - split; [lia|]. rewrite lookup_row by lia. do 2 f_equal. lia.
  - split; [lia|]. rewrite lookup_row by lia. do 2 f_equal. lia.
Qed.

Lemma lookup_full_enumeration n directed loops i j :
  full_member n directed loops (i, j) →
  full_enumeration n directed loops !! Z.to_nat (full_position n directed loops i j)
  = Some (i, j).
Proof.
  intros Hij. destruct (lookup_full_rule _ _ _ _ _ Hij) as [Hoff Hlook].
  assert (0 ≤ i < n) as Hi by (unfold full_member in Hij; simpl in Hij; lia).
  pose proof (full_row_start_nonneg n directed loops i Hi) as Hstart.
  unfold full_position, full_enumeration. rewrite Z2Nat.inj_add by done.
  rewrite (lookup_bind_seqZ _ (full_row_start n directed loops) 0 n i).
  - by rewrite Z.add_0_l.
  - unfold full_row_start. by destruct directed, loops.
  - intros m Hm. rewrite Z.add_0_l. by apply full_row_start_step.
  - done.
  - rewrite Z.add_0_l. by eapply lookup_lt_Some.
Qed.

(** X8. Edge ids of the full graph. For every variant, an edge [(i, j)] the
    variant owns sits at exactly one position of the edge list, the one the
    loops give it: [i * n + j] with direction and loops;
    [i * (n - 1) + j] (or [+ j - 1] when [j > i]) with direction only;
    [i * (2n - i + 1) / 2 + (j - i)] with loops only;
    [i * (2n - i - 1) / 2 + (j - i - 1)] with neither. *)
Theorem full_edge_position n directed loops i j :
  full_member n directed loops (i, j) →
  0 ≤ full_position n directed loops i j
  ∧ ∃ v, igraph_full_edges n directed loops = Done v
      ∧ ∀ p : nat, edge_list (stor v) !! p = Some (i, j)
                   ↔ p = Z.to_nat (full_position n directed loops i j).
Proof.
  intros Hij.
  assert (0 ≤ i < n) as Hi by (unfold full_member in Hij; simpl in Hij; lia).
  split.
  { unfold full_position.
    pose proof (full_row_start_nonneg n directed loops i Hi).
    destruct (lookup_full_rule _ _ _ _ _ Hij) as [Hoff _]. lia. }
  destruct (igraph_full_edges_spec n directed loops) as (v & Hv & Hstor); [lia|].
  exists v. rewrite Hstor, edge_list_flatten. split; [done|].
  pose proof (lookup_full_enumeration _ _ _ _ _ Hij) as Hpos.
  intros p. split; [|by intros ->].
  intros Hp. by eapply NoDup_lookup; [apply NoDup_full_enumeration|..].
Qed.

(** X9. With direction and loops the edge list is the row-major listing of
    all pairs: for [n >= 0] the edge at position [p < n * n] is
    [(p / n, p mod n)]. *)
Theorem full_directed_loops_row_major n p :
  0 ≤ n → 0 ≤ p < n * n →
  ∃ v, igraph_full_edges n true true = Done v
    ∧ edge_list (stor v) !! Z.to_nat p = Some (p `div` n, p `mod` n).
Proof.
  intros Hn0 Hp. assert (0 < n) as Hn by nia.
  destruct (igraph_full_edges_spec n true true) as (v & Hv & Hstor); [lia|].
  exists v. rewrite Hstor, edge_list_flatten. split; [done|].
  pose proof (Z.mod_pos_bound p n Hn) as Hmod.
  pose proof (Z.div_mod p n) as Hdm.
  assert (0 ≤ p `div` n < n) as Hdiv.
  { split; [apply Z.div_pos; lia | apply Z.div_lt_upper_bound; lia]. }
  rewrite <- (lookup_full_enumeration n true true (p `div` n) (p `mod` n)).
  - unfold full_position, full_row_start, full_row_offset. do 2 f_equal. lia.
  - unfold full_member. simpl. lia.
Qed.

Lemma lookup_citation_enumeration n i j :
  0 ≤ j < i → i < n →
  citation_enumeration n !! Z.to_nat (citation_position i j) = Some (i, j).
Proof.
  intros Hj Hi. unfold citation_position, citation_enumeration.
  assert (0 ≤ i * (i - 1) / 2) by (apply Z.div_pos; nia).
  rewrite Z2Nat.inj_add by lia.
  replace (i * (i - 1)) with ((i - 1) * ((i - 1) + 1)) by lia.
  rewrite (lookup_bind_seqZ _ (λ k, k * (k + 1) / 2) 1 (n - 1) (i - 1)).
  - replace (1 + (i - 1)) with i by lia.
    rewrite lookup_row by lia. do 2 f_equal. lia.
  - done.
  - intros m Hm. rewrite length_row.
    replace ((m + 1) * (m + 1 + 1)) with (m * (m + 1) + (m + 1) * 2) by lia.
    rewrite Z.div_add by done. lia.
  - lia.
  - rewrite length_row. lia.
Qed.

(** X10. Edge ids of the citation graph: the edge [(i, j)], [j < i < n], sits
    at position [i * (i - 1) / 2 + j] of the edge list and nowhere else;
    the position does not depend on [n]. *)
Theorem citation_edge_position n i j :
  0 ≤ j < i → i < n → n * (n - 1) ≤ IGRAPH_INTEGER_MAX →
  ∃ st, igraph_full_citation_fill n = Done st
    ∧ ∀ p : nat, edge_list (stor (edges_of st)) !! p = Some (i, j)
                 ↔ p = Z.to_nat (citation_position i j).
Proof.
  intros Hj Hi Hfit.
  destruct (igraph_full_citation_fill_spec n) as (st & Hst & Hstor & _);
    [lia | done |].
  exists st. rewrite Hstor, edge_list_flatten. split; [done|].
  pose proof (lookup_citation_enumeration n i j Hj Hi) as Hpos.
  intros p. split; [|by intros ->].
  intros Hp. eapply NoDup_lookup; [|done..].
  apply lex_lt_NoDup, StronglySorted_citation_enumeration.
Qed.

(** ** Degrees *)

Lemma filter_bind {A B : Type} (P : B → Prop) `{!∀ x, Decision (P x)}
    (g : A → list B) (l : list A) :
  filter P (l ≫= g) = l ≫= (λ x, filter P (g x)).
Proof.
  induction l as [|x l IH]; [done|].
  by rewrite !bind_cons, filter_app, IH.
Qed.

Lemma filter_all {A : Type} (P : A → Prop) `{!∀ x, Decision (P x)} (l : list A) :
  Forall P l → filter P l = l.
Proof.
  induction 1 as [|x l Hx Hl IH]; [done|].
  by rewrite filter_cons_True, IH.
Qed.

Lemma filter_none {A : Type} (P : A → Prop) `{!∀ x, Decision (P x)} (l : list A) :
  Forall (λ x, ¬ P x) l → filter P l = [].
Proof.
  induction 1 as [|x l Hx Hl IH]; [done|].
  by rewrite filter_cons_False, IH.
Qed.

(** The edges that leave [u] are the row of [u]. *)
Lemma filter_fst_bind_seqZ (g : Z → list (Z * Z)) lo len u :
  (∀ i e, e ∈ g i → e.1 = i) →
  filter (λ e : Z * Z, e.1 = u) (seqZ lo len ≫= g)
  = if decide (lo ≤ u < lo + len) then g u else [].
Proof.
  intros Hfst. remember (Z.to_nat len) as k eqn:Hk. revert lo len Hk.
  induction k as [|k IH]; intros lo len Hk.
  - rewrite seqZ_nil by lia. by case_decide; [lia|].
  - rewrite seqZ_cons, bind_cons, filter_app, (IH (Z.succ lo) (Z.pred len)) by lia.
    destruct (decide (u = lo)) as [->|Hne].
    + rewrite filter_all by (apply Forall_forall; intros e He; by apply Hfst in He).
      repeat case_decide; try lia. by rewrite app_nil_r.
    + rewrite filter_none; cycle 1.
      { apply Forall_forall. intros e He%Hfst. lia. }
      repeat case_decide; (done || lia).
Qed.

(** At most one edge of a row enters [u]. *)
Lemma filter_snd_row i lo hi u :
  filter (λ e : Z * Z, e.2 = u) (row i lo hi)
  = if decide (lo ≤ u < hi) then [(i, u)] else [].
Proof.
  unfold row. remember (Z.to_nat (hi - lo)) as k eqn:Hk. revert lo Hk.
  induction k as [|k IH]; intros lo Hk.
  - rewrite seqZ_nil by lia. by case_decide; [lia|].
  - rewrite seqZ_cons by lia. csimpl.
    replace (Z.pred (hi - lo)) with (hi - Z.succ lo) by lia.
    destruct (decide (lo = u)) as [->|Hne].
    + rewrite filter_cons_True, IH by (done || lia).
      repeat case_decide; (done || lia).
    + rewrite filter_cons_False, IH by (done || lia).
      repeat case_decide; (done || lia).
Qed.

Lemma length_filter_snd_row i lo hi u :
  Z.of_nat (length (filter (λ e : Z * Z, e.2 = u) (row i lo hi)))
  = if decide (lo ≤ u < hi) then 1 else 0.
Proof. rewrite filter_snd_row. by case_decide. Qed.

Lemma out_degree_full_enumeration n directed loops u :
  0 ≤ u < n →
  Z.of_nat (out_degree (full_enumeration n directed loops) u)
  = match directed, loops with
    | true, true => n
    | true, false => n - 1
    | false, true => n - u
    | false, false => n - u - 1
    end.
Proof.
  intros Hu. unfold out_degree, full_enumeration.
  rewrite filter_fst_bind_seqZ.
  - case_decide; [|lia]. by apply length_full_rule.
  - intros i e He. unfold full_rule in He.
    destruct directed, loops;
      rewrite ?elem_of_app, !elem_of_row in He; tauto.
Qed.

Lemma in_degree_full_enumeration n directed loops u :
  0 ≤ u < n →
  Z.of_nat (in_degree (full_enumeration n directed loops) u)
  = match directed, loops with
    | true, true => n
    | true, false => n - 1
    | false, true => u + 1
    | false, false => u
    end.
Proof.
  intros Hu. unfold in_degree, full_enumeration. rewrite filter_bind.
  destruct directed, loops; unfold full_rule.
  - rewrite (length_bind_seqZ _ (λ k, k)); [done | lia | done |].
    intros k Hk. rewrite length_filter_snd_row. case_decide; lia.
  - rewrite (length_bind_seqZ _ (λ k, if decide (u < k) then k - 1 else k));
      [| lia | by case_decide; [lia|] |].
    + case_decide; lia.
    + intros k Hk. rewrite Z.add_0_l, filter_app, length_app, Nat2Z.inj_add.
      rewrite !length_filter_snd_row. repeat case_decide; lia.
  - rewrite (length_bind_seqZ _ (λ k, Z.min k (u + 1))); [lia | lia | lia |].
    intros k Hk. rewrite length_filter_snd_row. case_decide; lia.
  - rewrite (length_bind_seqZ _ (λ k, Z.min k u)); [lia | lia | lia |].
    intros k Hk. rewrite length_filter_snd_row. case_decide; lia.
Qed.

(** X11. Degrees in the full graph, for every vertex [u] of [[0, n)]. With
    direction, as many edges leave [u] as enter it: [n] with loops, [n - 1]
    without. Without direction, [u] is the first end of [n - u] edges and the
    second end of [u + 1] with loops, of [n - u - 1] and [u] without: its
    degree is [n + 1] (the loop counts twice) or [n - 1]. *)
Theorem full_degrees n directed loops u :
  0 ≤ u < n →
  ∃ v, igraph_full_edges n directed loops = Done v
    ∧ Z.of_nat (out_degree (edge_list (stor v)) u)
      = match directed, loops with
        | true, true => n
        | true, false => n - 1
        | false, true => n - u
        | false, false => n - u - 1
        end
    ∧ Z.of_nat (in_degree (edge_list (stor v)) u)
      = match directed, loops with
        | true, true => n
        | true, false => n - 1
        | false, true => u + 1
        | false, false => u
        end.
Proof.
  intros Hu.
  destruct (igraph_full_edges_spec n directed loops) as (v & Hv & Hstor); [lia|].
  exists v. rewrite Hstor, edge_list_flatten. split; [done|].
  split; [by apply out_degree_full_enumeration | by apply in_degree_full_enumeration].
Qed.

(** X12. Degrees in the citation graph: the vertex [u] of [[0, n)] cites the
    [u] vertices before it and is cited by the [n - 1 - u] vertices after
    it. *)
Theorem citation_degrees n u :
  0 ≤ u < n → n * (n - 1) ≤ IGRAPH_INTEGER_MAX →
  ∃ st, igraph_full_citation_fill n = Done st
    ∧ Z.of_nat (out_degree (edge_list (stor (edges_of st))) u) = u
    ∧ Z.of_nat (in_degree (edge_list (stor (edges_of st))) u) = n - 1 - u.
Proof.
  intros Hu Hfit.
  destruct (igraph_full_citation_fill_spec n) as (st & Hst & Hstor & _);
    [lia | done |].
  exists st. rewrite Hstor, edge_list_flatten. split; [done|].
  unfold out_degree, in_degree, citation_enumeration. split.
  - rewrite filter_fst_bind_seqZ; cycle 1.
    { intros i e He%elem_of_row. tauto. }
    case_decide; [rewrite length_row; lia | simpl; lia].
  - rewrite filter_bind.
    rewrite (length_bind_seqZ _ (λ k, Z.max 0 (k - u))); [lia | lia | lia |].
    intros k Hk. rewrite length_filter_snd_row. case_decide; lia.
Qed.

(** ** Empty edge lists *)

Lemma nil_iff_no_elem {A : Type} (l : list A) : l = [] ↔ ∀ x, x ∉ l.
Proof.
  split; [intros -> x; apply not_elem_of_nil|].
  destruct l as [|x l]; [done|]. intros Hl. destruct (Hl x). by left.
Qed.

(** X14. When there is no edge. [igraph_full] passes an empty edge list
    exactly for [n = 0] and, without loops, for [n = 1];
    [igraph_full_citation] exactly for [n = 0] and [n = 1]. *)
Theorem empty_edge_lists n :
  0 ≤ n →
  (∀ directed loops,
     ∃ v, igraph_full_edges n directed loops = Done v
       ∧ (stor v = [] ↔ n = 0 ∨ (n = 1 ∧ loops = false)))
  ∧ (n * (n - 1) ≤ IGRAPH_INTEGER_MAX →
     ∃ st, igraph_full_citation_fill n = Done st
       ∧ (stor (edges_of st) = [] ↔ n ≤ 1)).
Proof.
  intros Hn.
  assert (∀ es, flatten es = [] ↔ es = []) as Hflat.
  { intros [|e es]; [done|]. split; [|done].
    intros Hnil. apply (f_equal length) in Hnil.
    rewrite length_flatten in Hnil. simpl in Hnil. lia. }
  split.
  - intros directed loops.
    destruct (igraph_full_edges_spec n directed loops Hn) as (v & Hv & Hstor).
    exists v. rewrite Hstor, Hflat, nil_iff_no_elem. split; [done|].
    setoid_rewrite elem_of_full_enumeration. unfold full_member. split.
    + intros Hnone.
      destruct (decide (n = 0)) as [|Hn0]; [by left|]. right.
      destruct loops.
      { destruct (Hnone (0, 0)). simpl. destruct directed; lia. }
      split; [|done].
      destruct (decide (n = 1)) as [|Hn1]; [done|].
      destruct (Hnone (0, 1)). simpl. destruct directed; lia.
    + intros [->|[-> ->]] e.
      * destruct directed, loops; simpl; lia.
      * destruct directed; simpl; lia.
  - intros Hfit.
    destruct (igraph_full_citation_fill_spec n Hn Hfit) as (st & Hst & Hstor & _).
    exists st. rewrite Hstor, Hflat, nil_iff_no_elem. split; [done|].
    setoid_rewrite elem_of_citation_enumeration. split.
    + intros Hnone. destruct (decide (n ≤ 1)) as [|Hbig]; [done|].
      destruct (Hnone (1, 0)). simpl. lia.
    + intros Hsmall e. lia.
Qed.

(** ** The unguarded size of [igraph_full_citation] *)

(** For [n >= 0] whose size [n * (n - 1)] is not representable the vector is
    too short for the stores of the loops: one of them leaves it. *)
Lemma igraph_full_citation_fill_overflow n :
  0 ≤ n → IGRAPH_INTEGER_MAX < n * (n - 1) →
  igraph_full_citation_fill n = Undefined.
Proof.
  intros Hn Hover.
  destruct (igraph_full_citation_fill n) as [st|e|] eqn:Hst; [| |done].
  - apply igraph_full_citation_fill_Done in Hst; [lia | done].
  - by apply igraph_full_citation_fill_no_error in Hst.
Qed.

(** C10, as the code has it. For [n >= 0] whose size [n * (n - 1)] is
    representable the vector has [n * (n - 1)] slots, no store
    [VECTOR(edges)[ptr++] = ...] leaves it, the stores go to the slots [0],
    [1], ..., [n * (n - 1) - 1], each once, [ptr] ends at [n * (n - 1)] and
    the vector holds the ends of the edges [(i, j)] in the order of the
    loops. For [n >= 0] whose size is not representable the size computation
    overflows, the vector is too short and a store leaves it. *)
Theorem citation_fill_bounds n :
  0 ≤ n →
  (n * (n - 1) ≤ IGRAPH_INTEGER_MAX →
     ∃ st, igraph_full_citation_fill n = Done st
       ∧ Z.of_nat (length (stor (edges_of st))) = n * (n - 1)
       ∧ ptr st = n * (n - 1)
       ∧ written st = seqZ 0 (n * (n - 1))
       ∧ (∀ k, k ∈ written st →
               0 ≤ k < Z.of_nat (length (stor (edges_of st))))
       ∧ stor (edges_of st) = flatten (citation_enumeration n))
  ∧ (IGRAPH_INTEGER_MAX < n * (n - 1) →
     igraph_full_citation_fill n = Undefined
     ∧ ∀ directed, igraph_full_citation n directed = Undefined).
Proof.
  intros Hn. split.
  - intros Hfit.
    destruct (igraph_full_citation_fill_spec n Hn Hfit)
      as (st & Hst & Hstor & Hlen & Hptr & Hlog).
    exists st. repeat (split; [done|]). split; [|done].
    intros k. rewrite Hlog, Hlen, elem_of_seqZ. lia.
  - intros Hover.
    pose proof (igraph_full_citation_fill_overflow n Hn Hover) as Hfill.
    split; [done|]. intros directed.
    unfold igraph_full_citation. by rewrite Hfill.
Qed.

(** C8, as the code has it. For every [n >= 0], [igraph_full] without
    direction and without loops has an edge list. When the size
    [n * (n - 1)] is representable, [igraph_full_citation] has one too, and
    read as unordered pairs the two are the same set of pairs, each pair
    once on either side. When the size is not representable,
    [igraph_full_citation] has no edge list to compare: a store leaves its
    vector and [igraph_create] is not reached. *)
Theorem citation_undirected_is_full n :
  0 ≤ n →
  ∃ v, igraph_full_edges n false false = Done v
    ∧ (n * (n - 1) ≤ IGRAPH_INTEGER_MAX →
       ∃ st, igraph_full_citation_fill n = Done st
         ∧ list_to_set (unordered <$> edge_list (stor (edges_of st)))
           =@{gset (Z * Z)} list_to_set (unordered <$> edge_list (stor v))
         ∧ unordered <$> edge_list (stor (edges_of st))
           ≡ₚ unordered <$> edge_list (stor v))
    ∧ (IGRAPH_INTEGER_MAX < n * (n - 1) →
       igraph_full_citation_fill n = Undefined
       ∧ ∀ directed, igraph_full_citation n directed = Undefined).
Proof.
  intros Hn.
  destruct (igraph_full_edges_spec n false false Hn) as (v & Hv & Hfull).
  exists v. split; [done|]. split; cycle 1.
  { intros Hover.
    pose proof (igraph_full_citation_fill_overflow n Hn Hover) as Hfill.
    split; [done|]. intros directed.
    unfold igraph_full_citation. by rewrite Hfill. }
  intros Hfit.
  destruct (igraph_full_citation_fill_spec n Hn Hfit) as (st & Hst & Hcit & _).
  exists st. split; [done|].
  rewrite Hcit, Hfull, !edge_list_flatten.
  assert (unordered <$> citation_enumeration n
          ≡ₚ unordered <$> full_enumeration n false false) as Hperm.
  { apply NoDup_Permutation.
    - apply NoDup_fmap_2_strong;
        [| apply lex_lt_NoDup, StronglySorted_citation_enumeration].
      intros [i j] [i' j'] Hx%elem_of_citation_enumeration
        Hy%elem_of_citation_enumeration [= Hmin Hmax].
      simpl in *. f_equal; lia.
    - apply NoDup_fmap_2_strong;
        [| apply lex_lt_NoDup, StronglySorted_full_enumeration].
      intros [i j] [i' j'] Hx%elem_of_full_enumeration
        Hy%elem_of_full_enumeration [= Hmin Hmax].
      unfold full_member in *. simpl in *. f_equal; lia.
    - intros e. by rewrite elem_of_unordered_citation, elem_of_unordered_full. }
  split; [|done]. by rewrite Hperm.
Qed.

End Full.

(** ** The generators on concrete inputs *)

Example full_directed_loops_3 :
  igraph_full_edges 32 3 true true
  = Done {| stor := [0; 0; 0; 1; 0; 2; 1; 0; 1; 1; 1; 2; 2; 0; 2; 1; 2; 2];
            capacity := 18;
            push_reallocs := 1 |}.
Proof. vm_compute. reflexivity. Qed.

Example full_directed_3 :
  ∃ v, igraph_full_edges 32 3 true false = Done v
    ∧ edge_list (stor v) = [(0, 1); (0, 2); (1, 0); (1, 2); (2, 0); (2, 1)].
Proof. eexists. split; vm_compute; reflexivity. Qed.

Example full_undirected_loops_2 :
  ∃ v, igraph_full_edges 32 2 false true = Done v
    ∧ edge_list (stor v) = [(0, 0); (0, 1); (1, 1)].
Proof. eexists. split; vm_compute; reflexivity. Qed.

Example full_undirected_2 :
  ∃ v, igraph_full_edges 32 2 false false = Done v
    ∧ edge_list (stor v) = [(0, 1)].
Proof. eexists. split; vm_compute; reflexivity. Qed.

(** One vertex, directed, with loops: one slot is reserved, the edge
    [(0, 0)] takes two, and the second append enlarges the storage. *)
Example full_directed_loops_1 :
  igraph_full_edges 32 1 true true
  = Done {| stor := [0; 0]; capacity := 2; push_reallocs := 1 |}.
Proof. vm_compute. reflexivity. Qed.

Example full_citation_4 :
  igraph_full_citation_fill 32 4
  = Done {| edges_of := {| stor := [1; 0; 2; 0; 2; 1; 3; 0; 3; 1; 3; 2];
                           capacity := 12;
                           push_reallocs := 0 |};
            ptr := 12;
            written := [0; 1; 2; 3; 4; 5; 6; 7; 8; 9; 10; 11] |}.
Proof. vm_compute. reflexivity. Qed.

(** [n = -1] passes [igraph_full_citation] unchecked, where [igraph_full]
    returns [IGRAPH_EINVAL]. *)
Example full_citation_minus_1 :
  igraph_full_citation_fill 32 (-1)
  = Done {| edges_of := {| stor := [0; 0]; capacity := 2; push_reallocs := 0 |};
            ptr := 0;
            written := [] |}
  ∧ igraph_full_edges 32 (-1) true false = Raise IGRAPH_EINVAL.
Proof. split; vm_compute; reflexivity. Qed.

(** C2 as it is worded asks for [n * (n - 1)] edges; at [n = 4] the edge
    list has six edges, not twelve. *)
Lemma citation_count_counterexample :
  ∃ st, igraph_full_citation_fill 32 4 = Done st
    ∧ Z.of_nat (length (edge_list (stor (edges_of st)))) = 6
    ∧ Z.of_nat (length (edge_list (stor (edges_of st)))) ≠ 4 * (4 - 1).
Proof.
  exists {| edges_of := {| stor := [1; 0; 2; 0; 2; 1; 3; 0; 3; 1; 3; 2];
                           capacity := 12;
                           push_reallocs := 0 |};
            ptr := 12;
            written := [0; 1; 2; 3; 4; 5; 6; 7; 8; 9; 10; 11] |}.
  split; [vm_compute; reflexivity|]. simpl. split; [reflexivity | discriminate].
Qed.

(** ** The theorems at concrete inputs *)

Lemma full_edge_count_witness :
  0 ≤ 3
  ∧ ∃ v, igraph_full_edges 32 3 false true = Done v
      ∧ Z.of_nat (length (edge_list (stor v))) = 3 * (3 + 1) / 2
      ∧ NoDup (edge_list (stor v)).
Proof.
  split; [lia|].
  destruct (full_edge_count 32 unit (λ _ _ _, Done ()) 3 false true)
    as (v & Hv & _ & Hcount & Hnodup & _); [lia|].
  exists v. split; [exact Hv|]. split; [exact Hcount | exact Hnodup].
Defined.

Lemma full_negative_rejected_zero_accepted_witness :
  -2 < 0
  ∧ igraph_full_edges 32 (-2) true false = Raise IGRAPH_EINVAL
  ∧ igraph_full 32 unit (λ _ _ _, Done ()) (-2) true false
    = Raise IGRAPH_EINVAL.
Proof.
  split; [lia|].
  apply (full_negative_rejected_zero_accepted
           32 unit (λ _ _ _, Done ()) (-2) true false).
  lia.
Defined.

Lemma full_emission_order_witness :
  0 ≤ 3
  ∧ ∃ v, igraph_full_edges 32 3 true false = Done v
      ∧ (∀ (p q : nat) e1 e2,
           (p < q)%nat →
           edge_list (stor v) !! p = Some e1 →
           edge_list (stor v) !! q = Some e2 →
           e1.1 ≤ e2.1 ∧ (e1.1 = e2.1 → e1.2 < e2.2))
      ∧ (true = true → false = false →
         ∀ (p q : nat) i j j',
           edge_list (stor v) !! p = Some (i, j) →
           edge_list (stor v) !! q = Some (i, j') →
           j < i → i < j' → (p < q)%nat).
Proof. split; [lia | apply (full_emission_order 32 3 true false); lia]. Defined.

Lemma directed_self_loops_witness :
  0 ≤ 3
  ∧ (∃ v, igraph_full_edges 32 3 true true = Done v
       ∧ (0, 0) ∈ edge_list (stor v)
       ∧ (1, 1) ∈ edge_list (stor v)
       ∧ (2, 2) ∈ edge_list (stor v))
  ∧ (∃ v, igraph_full_edges 32 3 true false = Done v
       ∧ ∀ i, (i, i) ∉ edge_list (stor v)).
Proof. split; [lia | apply (directed_self_loops 32 3); lia]. Defined.

Lemma full_reserve_too_small_witness :
  0 ≤ 1 ∧ 0 < full_count 1 true true
  ∧ ∃ v, igraph_full_edges 32 1 true true = Done v
      ∧ (0 < push_reallocs v)%nat.
Proof.
  split; [|split]; [lia | reflexivity |].
  apply (full_reserve_too_small 32 1 true true); [lia | reflexivity].
Defined.

Lemma citation_emission_witness :
  0 ≤ 4 ∧ 4 * (4 - 1) ≤ IGRAPH_INTEGER_MAX 32
  ∧ ∃ st, igraph_full_citation_fill 32 4 = Done st
      ∧ edge_list (stor (edges_of st))
        = [(1, 0); (2, 0); (2, 1); (3, 0); (3, 1); (3, 2)]
      ∧ Z.of_nat (length (edge_list (stor (edges_of st)))) = 4 * (4 - 1) / 2.
Proof.
  split; [lia|]. split; [vm_compute; discriminate|].
  destruct (citation_emission 32 4) as [Hreach Hedges]; [lia|].
  destruct Hreach as [st Hst]; [vm_compute; discriminate|].
  exists st. split; [exact Hst|].
  destruct (Hedges st Hst) as (_ & _ & _ & Hcount & _ & Hfour).
  split; [exact (Hfour eq_refl) | exact Hcount].
Defined.

Lemma citation_negative_not_rejected_witness :
  -1 < 0 ∧ (-1) * (-1 - 1) ≤ IGRAPH_INTEGER_MAX 32
  ∧ igraph_full_citation_fill 32 (-1)
    = Done {| edges_of := {| stor := replicate (Z.to_nat ((-1) * (-1 - 1))) 0;
                             capacity := (-1) * (-1 - 1);
                             push_reallocs := 0 |};
              ptr := 0;
              written := [] |}
  ∧ igraph_full_citation 32 unit (λ _ _ _, Done ()) (-1) true
    = Done ().
Proof.
  split; [lia|]. split; [vm_compute; discriminate|].
  apply (citation_negative_not_rejected
           32 unit (λ _ _ _, Done ()) (-1) true);
    [lia | vm_compute; discriminate].
Defined.

Lemma emitted_indices_in_range_witness :
  0 ≤ 3 ∧ 3 * (3 - 1) ≤ IGRAPH_INTEGER_MAX 32
  ∧ (∃ v, igraph_full_edges 32 3 true true = Done v
       ∧ ∀ e, e ∈ edge_list (stor v) → 0 ≤ e.1 < 3 ∧ 0 ≤ e.2 < 3)
  ∧ (∃ st, igraph_full_citation_fill 32 3 = Done st
       ∧ ∀ e, e ∈ edge_list (stor (edges_of st)) → 0 ≤ e.1 < 3 ∧ 0 ≤ e.2 < 3).
Proof.
  split; [lia|]. split; [vm_compute; discriminate|].
  destruct (emitted_indices_in_range 32 unit (λ _ _ _, Done ()) 3)
    as (Hfull & Hreach & Hcit); [lia|].
  split.
  - destruct (Hfull true true) as (v & Hv & _ & _ & Hrange).
    exists v. split; [exact Hv | exact Hrange].
  - destruct Hreach as [st Hst]; [vm_compute; discriminate|].
    destruct (Hcit st Hst) as (_ & _ & Hrange).
    exists st. split; [exact Hst | exact Hrange].
Defined.


(** ** The further properties at concrete inputs *)

Lemma full_contains_complete_graph_witness :
  0 ≤ 2 < 3 ∧ 0 ≤ 0 < 3 ∧ 2 ≠ 0
  ∧ ∃ vec, igraph_full_edges 32 3 false false = Done vec
      ∧ ((2, 0) ∈ edge_list (stor vec) ∨ (0, 2) ∈ edge_list (stor vec)).
Proof.
  split; [lia|]. split; [lia|]. split; [lia|].
  apply (full_contains_complete_graph 32 3 false false 2 0); lia.
Defined.

Lemma full_induced_subgraph_witness :
  0 ≤ 2 ≤ 3
  ∧ ∃ vn vm, igraph_full_edges 32 2 true true = Done vn
      ∧ igraph_full_edges 32 3 true true = Done vm
      ∧ ∀ e, e ∈ edge_list (stor vn)
             ↔ e ∈ edge_list (stor vm) ∧ e.1 < 2 ∧ e.2 < 2.
Proof. split; [lia|]. apply (full_induced_subgraph 32 2 3 true true). lia. Defined.

Lemma full_loops_adds_self_loops_witness :
  0 ≤ 3
  ∧ ∃ vl v0, igraph_full_edges 32 3 false true = Done vl
      ∧ igraph_full_edges 32 3 false false = Done v0
      ∧ edge_list (stor vl) ≡ₚ edge_list (stor v0) ++ self_loops 3.
Proof. split; [lia|]. apply (full_loops_adds_self_loops 32 3 false). lia. Defined.

Lemma full_directed_is_both_directions_witness :
  0 ≤ 3
  ∧ ∃ vd vu, igraph_full_edges 32 3 true false = Done vd
      ∧ igraph_full_edges 32 3 false false = Done vu
      ∧ edge_list (stor vd)
        ≡ₚ edge_list (stor vu) ++ (prod_swap <$> edge_list (stor vu)).
Proof. split; [lia|]. apply (full_directed_is_both_directions 32 3). lia. Defined.

Lemma citation_strict_order_witness :
  0 ≤ 4 ∧ 4 * (4 - 1) ≤ IGRAPH_INTEGER_MAX 32
  ∧ ∃ st, igraph_full_citation_fill 32 4 = Done st
      ∧ NoDup (edge_list (stor (edges_of st)))
      ∧ (∀ a, (a, a) ∉ edge_list (stor (edges_of st))).
Proof.
  split; [lia|]. split; [vm_compute; discriminate|].
  destruct (citation_strict_order 32 4) as (st & Hst & Hnodup & Hirr & _);
    [lia | vm_compute; discriminate |].
  exists st. split; [exact Hst|]. split; [exact Hnodup | exact Hirr].
Defined.

Lemma citation_grows_by_appending_witness :
  0 ≤ 3 ∧ (3 + 1) * 3 ≤ IGRAPH_INTEGER_MAX 32
  ∧ ∃ st st', igraph_full_citation_fill 32 3 = Done st
      ∧ igraph_full_citation_fill 32 (3 + 1) = Done st'
      ∧ edge_list (stor (edges_of st'))
        = edge_list (stor (edges_of st)) ++ ((λ j, (3, j)) <$> seqZ 0 3).
Proof.
  split; [lia|]. split; [vm_compute; discriminate|].
  apply (citation_grows_by_appending 32 3); [lia | vm_compute; discriminate].
Defined.

Lemma citation_size_overflow_witness :
  0 ≤ 65536 ∧ IGRAPH_INTEGER_MAX 32 < 65536 * (65536 - 1)
  ∧ igraph_full_citation_fill 32 65536 = Undefined.
Proof.
  split; [lia|]. split; [vm_compute; reflexivity|].
  apply (citation_size_overflow 32 unit (λ _ _ _, Done ()) 65536 true);
    [lia | vm_compute; reflexivity].
Defined.

Lemma full_edge_position_witness :
  full_member 4 true false (2, 3)
  ∧ ∃ v, igraph_full_edges 32 4 true false = Done v
      ∧ ∀ p : nat, edge_list (stor v) !! p = Some (2, 3)
                   ↔ p = Z.to_nat (full_position 4 true false 2 3).
Proof.
  assert (full_member 4 true false (2, 3)) as Hmem
    by (unfold full_member; simpl; lia).
  split; [exact Hmem|].
  exact (proj2 (full_edge_position 32 4 true false 2 3 Hmem)).
Defined.

Lemma full_directed_loops_row_major_witness :
  0 ≤ 3 ∧ 0 ≤ 5 < 3 * 3
  ∧ ∃ v, igraph_full_edges 32 3 true true = Done v
      ∧ edge_list (stor v) !! Z.to_nat 5 = Some (5 `div` 3, 5 `mod` 3).
Proof.
  split; [lia|]. split; [lia|].
  apply (full_directed_loops_row_major 32 3 5); lia.
Defined.

Lemma citation_edge_position_witness :
  0 ≤ 1 < 3 ∧ 3 < 4 ∧ 4 * (4 - 1) ≤ IGRAPH_INTEGER_MAX 32
  ∧ ∃ st, igraph_full_citation_fill 32 4 = Done st
      ∧ ∀ p : nat, edge_list (stor (edges_of st)) !! p = Some (3, 1)
                   ↔ p = Z.to_nat (citation_position 3 1).
Proof.
  split; [lia|]. split; [lia|]. split; [vm_compute; discriminate|].
  apply (citation_edge_position 32 4 3 1); [lia | lia | vm_compute; discriminate].
Defined.

Lemma full_degrees_witness :
  0 ≤ 1 < 4
  ∧ ∃ v, igraph_full_edges 32 4 false false = Done v
      ∧ Z.of_nat (out_degree (edge_list (stor v)) 1) = 4 - 1 - 1
      ∧ Z.of_nat (in_degree (edge_list (stor v)) 1) = 1.
Proof. split; [lia|]. apply (full_degrees 32 4 false false 1). lia. Defined.

Lemma citation_degrees_witness :
  0 ≤ 1 < 4 ∧ 4 * (4 - 1) ≤ IGRAPH_INTEGER_MAX 32
  ∧ ∃ st, igraph_full_citation_fill 32 4 = Done st
      ∧ Z.of_nat (out_degree (edge_list (stor (edges_of st))) 1) = 1
      ∧ Z.of_nat (in_degree (edge_list (stor (edges_of st))) 1) = 4 - 1 - 1.
Proof.
  split; [lia|]. split; [vm_compute; discriminate|].
  apply (citation_degrees 32 4 1); [lia | vm_compute; discriminate].
Defined.

Lemma empty_edge_lists_witness :
  0 ≤ 1 ∧ 1 * (1 - 1) ≤ IGRAPH_INTEGER_MAX 32
  ∧ (∃ v, igraph_full_edges 32 1 true false = Done v ∧ stor v = [])
  ∧ (∃ st, igraph_full_citation_fill 32 1 = Done st ∧ stor (edges_of st) = []).
Proof.
  split; [lia|]. split; [vm_compute; discriminate|].
  destruct (empty_edge_lists 32 1) as [Hfull Hcit]; [lia|].
  split.
  - destruct (Hfull true false) as (v & Hv & Hempty).
    exists v. split; [exact Hv|]. apply Hempty. right. split; reflexivity.
  - destruct Hcit as (st & Hst & Hempty); [vm_compute; discriminate|].
    exists st. split; [exact Hst|]. apply Hempty. lia.
Defined.

(** At [n = 65536] with 32 bits the size [n * (n - 1)] overflows:
    [igraph_full] still has its edge list, [igraph_full_citation] stores
    outside its vector; at [n = 5] the vector is filled exactly. *)
Lemma citation_fill_bounds_witness :
  0 ≤ 65536 ∧ IGRAPH_INTEGER_MAX 32 < 65536 * (65536 - 1)
  ∧ igraph_full_citation_fill 32 65536 = Undefined
  ∧ 0 ≤ 5 ∧ 5 * (5 - 1) ≤ IGRAPH_INTEGER_MAX 32
  ∧ ∃ st, igraph_full_citation_fill 32 5 = Done st
      ∧ ptr st = 5 * (5 - 1)
      ∧ stor (edges_of st) = flatten (citation_enumeration 5).
Proof.
  split; [lia|]. split; [vm_compute; reflexivity|]. split.
  { destruct (citation_fill_bounds 32 unit (λ _ _ _, Done ()) 65536)
      as [_ Hover]; [lia|].
    destruct Hover as [Hfill _]; [vm_compute; reflexivity|]. exact Hfill. }
  split; [lia|]. split; [vm_compute; discriminate|].
  destruct (citation_fill_bounds 32 unit (λ _ _ _, Done ()) 5)
    as [Hfit _]; [lia|].
  destruct Hfit as (st & Hst & _ & Hptr & _ & _ & Hstor);
    [vm_compute; discriminate|].
  exists st. split; [exact Hst|]. split; [exact Hptr | exact Hstor].
Defined.

Lemma citation_undirected_is_full_witness :
  0 ≤ 65536 ∧ IGRAPH_INTEGER_MAX 32 < 65536 * (65536 - 1)
  ∧ (∃ v, igraph_full_edges 32 65536 false false = Done v
       ∧ igraph_full_citation_fill 32 65536 = Undefined)
  ∧ 0 ≤ 4 ∧ 4 * (4 - 1) ≤ IGRAPH_INTEGER_MAX 32
  ∧ ∃ v st, igraph_full_edges 32 4 false false = Done v
      ∧ igraph_full_citation_fill 32 4 = Done st
      ∧ list_to_set (unordered <$> edge_list (stor (edges_of st)))
        =@{gset (Z * Z)} list_to_set (unordered <$> edge_list (stor v)).
Proof.
  split; [lia|]. split; [vm_compute; reflexivity|]. split.
  { destruct (citation_undirected_is_full 32 unit (λ _ _ _, Done ()) 65536)
      as (v & Hv & _ & Hover); [lia|].
    destruct Hover as [Hfill _]; [vm_compute; reflexivity|].
    exists v. split; [exact Hv | exact Hfill]. }
  split; [lia|]. split; [vm_compute; discriminate|].
  destruct (citation_undirected_is_full 32 unit (λ _ _ _, Done ()) 4)
    as (v & Hv & Hfit & _); [lia|].
  destruct Hfit as (st & Hst & Hsame & _); [vm_compute; discriminate|].
  exists v, st. split; [exact Hv|]. split; [exact Hst | exact Hsame].
Defined.
